(** * Password generator: the generation engine of [model/password.go]

    A shallow embedding of the Go package [model] and the properties of its
    constrained-generation pipeline.

    Every string the package handles is built from ASCII alphabets, so the
    bytes of a string and its runes coincide ([pools_are_ascii],
    [charSets_is_ascii] below); a Go string is modelled as the sequence of
    its characters, each character as its ordinal value. *)

From Stdlib Require Import ZArith List String Ascii Lia Bool.
From stdpp Require Import base option list gmap.

Local Open Scope Z_scope.

(** ** Characters and strings *)

(** Go's [rune] is an [int32]; arithmetic on it wraps around. *)
Abbreviation rune := Z (only parsing).

Definition wrap32 (z : Z) : rune := (z + 2 ^ 31) mod 2 ^ 32 - 2 ^ 31.

(** The characters of a string literal of the source, by ordinal value. *)
Definition runes_of (s : string) : list rune :=
  map (fun c => Z.of_N (N_of_ascii c)) (list_ascii_of_string s).

(** [len(s)] *)
Definition len {A : Type} (s : list A) : Z := Z.of_nat (length s).

(** ** PasswordOptions *)

Record PasswordOptions : Type := mkPasswordOptions {
  MinLength : Z;
  MaxLength : Z;
  DefaultLength : Z;
  Quantity : Z;
  IncludeSymbols : bool;
  IncludeNumbers : bool;
  IncludeUpper : bool;
  IncludeLower : bool;
  BeginWithLetter : bool;
  NoSimilar : bool;
  NoDuplicates : bool;
  NoSequential : bool;
  Length : Z
}.

(** [var similarCharacters = "iIl1Lo0O"] *)
Definition similarCharacters : list rune := runes_of "iIl1Lo0O".

(** The four class literals of [buildCharacterSet] and [getRandomLetter]. *)
Definition symbolChars : list rune := runes_of "!@#$%^&*()-_=+[]{}|;:,.<>/?".
Definition numberChars : list rune := runes_of "0123456789".
Definition upperChars : list rune := runes_of "ABCDEFGHIJKLMNOPQRSTUVWXYZ".
Definition lowerChars : list rune := runes_of "abcdefghijklmnopqrstuvwxyz".

(** The literal of [getRandomRune]. *)
Definition charSets : list rune :=
  runes_of "ABCDEFGHIJKLMNOPQRSTUVWXYZabcdefghijklmnopqrstuvwxyz0123456789".

(** ** Errors, panics and the entropy source *)

(** An [error] value: one made by [errors.New], or the one the reader of
    [crypto/rand] hands back. *)
Inductive error : Type :=
  | ErrorsNew (msg : string)
  | ReaderError.

Definition errNoCharacterType : error :=
  ErrorsNew "at least one character type must be selected".
Definition errSecureRandom : error :=
  ErrorsNew "failed to generate secure random character".

(** The run-time panics the package can raise. *)
Inductive panic : Type :=
  | RandIntArgument      (* crypto/rand: argument to Int is <= 0 *)
  | NilDereference       (* method call through a nil *big.Int *)
  | IndexOutOfRange      (* index out of range *)
  | MakesliceLen.        (* makeslice: len out of range *)

(** The entropy source: what [rand.Reader] gives the [n]-th call of
    [rand.Int] that consults it, [None] when the reader fails and [Some k]
    when it delivers; a delivered [k] is reduced into the range asked for.
    Every index below [max] arises from some [k], so the streams cover
    every behaviour of the reader. *)
Definition source : Type := nat -> option Z.

(** A source that never fails, from the values it delivers. *)
Definition reliable (vals : nat -> Z) : source := fun n => Some (vals n).

(** A source given by its first draws; it fails once they are used up. *)
Definition draws (l : list Z) : source := fun n => nth_error l n.

Inductive outcome (A : Type) : Type :=
  | Done (a : A) (pos : nat)   (* normal return, [pos] reads made so far *)
  | Panicked (p : panic)
  | OutOfFuel.
Arguments Done {A} a pos.
Arguments Panicked {A} p.
Arguments OutOfFuel {A}.

(** Computations that read the source. *)
Definition M (A : Type) : Type := source -> nat -> outcome A.

Definition raise {A} (p : panic) : M A := fun _ _ => Panicked p.
Definition out_of_fuel {A} : M A := fun _ _ => OutOfFuel.

#[global] Instance M_ret : MRet M := fun A (a : A) _ pos => Done a pos.
#[global] Instance M_bind : MBind M := fun A B (k : A -> M B) (m : M A) src pos =>
  match m src pos with
  | Done a pos' => k a src pos'
  | Panicked p => Panicked p
  | OutOfFuel => OutOfFuel
  end.

(** [rand.Int(rand.Reader, big.NewInt(max))]: panics on [max <= 0]; for
    [max = 1] the only result is 0 and the reader is not consulted;
    otherwise one read, and the pair [(n, nil)] or [(nil, err)]. *)
Definition randInt (max : Z) : M (option Z * option error) :=
  fun src pos =>
    if max <=? 0 then Panicked RandIntArgument
    else if max =? 1 then Done (Some 0, None) pos
    else match src pos with
         | Some k => Done (Some (k mod max), None) (S pos)
         | None => Done (None, Some ReaderError) (S pos)
         end.

(** [index.Int64()] through a possibly nil pointer. *)
Definition Int64 (index : option Z) : M Z :=
  match index with
  | Some n => mret n
  | None => raise NilDereference
  end.

(** [s[i]], with Go's bounds check. *)
Definition index_at (s : list rune) (i : Z) : M rune :=
  match (if 0 <=? i then s !! Z.to_nat i else None) with
  | Some c => mret c
  | None => raise IndexOutOfRange
  end.

(** [make([]byte, n)] *)
Definition make_bytes (n : Z) : M (list rune) :=
  if n <? 0 then raise MakesliceLen else mret (replicate (Z.to_nat n) 0).

(** ** The character pool *)

Definition buildCharacterSet (opts : PasswordOptions) : list rune :=
  let chars := [] in
  let chars := if IncludeSymbols opts then chars ++ symbolChars else chars in
  let chars := if IncludeNumbers opts then chars ++ numberChars else chars in
  let chars := if IncludeUpper opts then chars ++ upperChars else chars in
  let chars := if IncludeLower opts then chars ++ lowerChars else chars in
  chars.

(** ** The secure sampler *)

Definition secureRandomChar (chars : list rune) : M (rune * option error) :=
  '(index, err) ← randInt (len chars);
  match err with
  | Some _ => mret (0, Some errSecureRandom)
  | None => i ← Int64 index; c ← index_at chars i; mret (c, None)
  end.

Definition getRandomLetter (opts : PasswordOptions) : M (rune * option error) :=
  let letters := [] in
  let letters := if IncludeUpper opts then letters ++ upperChars else letters in
  let letters := if IncludeLower opts then letters ++ lowerChars else letters in
  secureRandomChar letters.

Definition getRandomRune : M rune :=
  '(index, _) ← randInt (len charSets);
  i ← Int64 index;
  index_at charSets i.

(** ** The constraint enforcer *)

(** [strings.ReplaceAll(s, old, new)] for an [old] of one character, which
    is what [string(char)] is for the ASCII characters it is called with:
    every occurrence of the character gives way to [new]. *)
Fixpoint ReplaceAll (s : list rune) (old : rune) (new : list rune) : list rune :=
  match s with
  | [] => []
  | c :: s' => (if c =? old then new else [c]) ++ ReplaceAll s' old new
  end.

Definition removeSimilarCharacters (password : list rune) : list rune :=
  foldl (fun password char => ReplaceAll password char []) password similarCharacters.

(** The loop of [removeDuplicateCharacters] over the characters still to
    visit, with the [seen] map and the builder as they stand; a key the
    map lacks reads as [false]. *)
Fixpoint removeDuplicate_loop (rest : list rune) (seen : gmap Z bool)
    (result : list rune) : list rune :=
  match rest with
  | [] => result
  | char :: rest' =>
      if negb (default false (seen !! char))
      then removeDuplicate_loop rest' (<[char := true]> seen) (result ++ [char])
      else removeDuplicate_loop rest' seen result
  end.

Definition removeDuplicateCharacters (password : list rune) : list rune :=
  removeDuplicate_loop password ∅ [].

Definition isSequential (a b c : rune) : bool :=
  ((b =? wrap32 (a + 1)) && (c =? wrap32 (b + 1)))
  || ((b =? wrap32 (a - 1)) && (c =? wrap32 (b - 1))).

(** The sentinel [' '] of the neighbour tests. *)
Definition space : rune := 32.

(** The loop of [generateNonSequentialChars]; [fuel] bounds its
    iterations, which the source does not. The two operands of [||] are
    evaluated left to right, the right one only when the left is false,
    and each index expression only behind its guard. *)
Fixpoint generateNonSequential_loop (fuel : nat) (runes : list rune) (index : Z)
    (replacementRunes : list rune) : M (list rune) :=
  if len replacementRunes <? 3 then
    match fuel with
    | O => out_of_fuel
    | S fuel' =>
        randomChar ← getRandomRune;
        left ← (if 0 <? index
                then prev ← index_at runes (index - 1);
                     mret (isSequential prev randomChar space)
                else mret false);
        skip ← (if left : bool then mret true
                else if index + 3 <? len runes
                then next ← index_at runes (index + 3);
                     mret (isSequential randomChar next space)
                else mret false);
        if skip : bool
        then generateNonSequential_loop fuel' runes index replacementRunes
        else generateNonSequential_loop fuel' runes index (replacementRunes ++ [randomChar])
    end
  else mret replacementRunes.

Definition generateNonSequentialChars (fuel : nat) (runes : list rune) (index : Z)
    : M (list rune) :=
  generateNonSequential_loop fuel runes index [].

(** The loop of [removeSequentialCharacters] from index [i] on. Each
    iteration advances [i] by one or by three, so [steps], the number of
    iterations allowed, is never used up when it starts at [len(runes)]
    ([removeSequential_loop_outcome]). *)
Fixpoint removeSequential_loop (steps fuel : nat) (runes : list rune) (i : Z)
    (result : list rune) : M (list rune) :=
  if i <? len runes then
    match steps with
    | O => out_of_fuel
    | S steps' =>
        found ← (if i + 2 <? len runes
                 then a ← index_at runes i;
                      b ← index_at runes (i + 1);
                      c ← index_at runes (i + 2);
                      mret (isSequential a b c)
                 else mret false);
        if found : bool
        then replacement ← generateNonSequentialChars fuel runes i;
             removeSequential_loop steps' fuel runes (i + 2 + 1) (result ++ replacement)
        else c ← index_at runes i;
             removeSequential_loop steps' fuel runes (i + 1) (result ++ [c])
    end
  else mret result.

Definition removeSequentialCharacters (fuel : nat) (password : list rune)
    : M (list rune) :=
  let runes := password in
  removeSequential_loop (length runes) fuel runes 0 [].

(** ** Assembling one password, and the batch *)

(** The loop of [generatePassword] that fills the buffer, from index [i]
    on with [steps] iterations to go; it returns the buffer and [nil], or
    leaves early with the empty string and the error. *)
Fixpoint fill_loop (steps : nat) (opts : PasswordOptions) (chars : list rune)
    (i : Z) (password : list rune) : M (list rune * option error) :=
  match steps with
  | O => mret (password, None)
  | S steps' =>
      '(c, err) ← (if (i =? 0) && BeginWithLetter opts
                   then getRandomLetter opts
                   else secureRandomChar chars);
      let password := <[Z.to_nat i := c]> password in
      match err with
      | Some e => mret ([], Some e)
      | None => fill_loop steps' opts chars (i + 1) password
      end
  end.

Definition generatePassword (fuel : nat) (opts : PasswordOptions)
    : M (list rune * option error) :=
  let chars := buildCharacterSet opts in
  if bool_decide (chars = []) then mret ([], Some errNoCharacterType)
  else
    password ← make_bytes (Length opts);
    '(password, err) ← fill_loop (Z.to_nat (Length opts)) opts chars 0 password;
    match err with
    | Some e => mret ([], Some e)
    | None =>
        let passwordStr := password in
        let passwordStr :=
          if NoSimilar opts then removeSimilarCharacters passwordStr else passwordStr in
        let passwordStr :=
          if NoDuplicates opts then removeDuplicateCharacters passwordStr else passwordStr in
        passwordStr ← (if NoSequential opts
                       then removeSequentialCharacters fuel passwordStr
                       else mret passwordStr);
        mret (passwordStr, None)
    end.

(** The loop of [GeneratePasswords] with [n] iterations to go; on an error
    it returns [nil] and the error. *)
Fixpoint GeneratePasswords_loop (n fuel : nat) (opts : PasswordOptions)
    (passwords : list (list rune)) : M (list (list rune) * option error) :=
  match n with
  | O => mret (passwords, None)
  | S n' =>
      '(password, err) ← generatePassword fuel opts;
      match err with
      | Some e => mret ([], Some e)
      | None => GeneratePasswords_loop n' fuel opts (passwords ++ [password])
      end
  end.

Definition GeneratePasswords (fuel : nat) (opts : PasswordOptions)
    : M (list (list rune) * option error) :=
  GeneratePasswords_loop (Z.to_nat (Quantity opts)) fuel opts [].

(** ** Requests and checks used in the statements *)

(** A request with the bounds of [config.GetDefaultOptions]. *)
Definition request (length quantity : Z)
    (symbols numbers upper lower beginWithLetter noSimilar noDuplicates noSequential : bool)
    : PasswordOptions :=
  {| MinLength := 6; MaxLength := 32; DefaultLength := 12; Quantity := quantity;
     IncludeSymbols := symbols; IncludeNumbers := numbers;
     IncludeUpper := upper; IncludeLower := lower;
     BeginWithLetter := beginWithLetter; NoSimilar := noSimilar;
     NoDuplicates := noDuplicates; NoSequential := noSequential;
     Length := length |}.

(** The check of [TestGeneratePasswords_NoSequentialCharacters]: some three
    consecutive characters are sequential. *)
Fixpoint hasSequentialRun (runes : list rune) : bool :=
  match runes with
  | a :: (b :: c :: _) as rest => isSequential a b c || hasSequentialRun rest
  | _ => false
  end.

(** The number of runs the scan of [removeSequentialCharacters] replaces:
    it tests the three characters at its index, moves on past a run it
    finds, and by one character otherwise. *)
Fixpoint replacedRuns (runes : list rune) : nat :=
  match runes with
  | a :: (b :: c :: after) as rest =>
      if isSequential a b c then S (replacedRuns after) else replacedRuns rest
  | _ => O
  end.

(** A character belongs to the alphabet of a class the request enables. *)
Definition in_enabled_class (opts : PasswordOptions) (c : rune) : Prop :=
  (IncludeSymbols opts = true /\ c ∈ symbolChars)
  \/ (IncludeNumbers opts = true /\ c ∈ numberChars)
  \/ (IncludeUpper opts = true /\ c ∈ upperChars)
  \/ (IncludeLower opts = true /\ c ∈ lowerChars).

(** A valid request: positive length and quantity, a class enabled, and a
    letter class enabled when the first character must be a letter. *)
Definition valid_request (opts : PasswordOptions) : Prop :=
  0 < Length opts /\ 0 < Quantity opts
  /\ (IncludeSymbols opts || IncludeNumbers opts || IncludeUpper opts || IncludeLower opts = true)
  /\ (BeginWithLetter opts = true -> IncludeUpper opts || IncludeLower opts = true).

(** The letters [getRandomLetter] samples from. *)
Definition letters (opts : PasswordOptions) : list rune :=
  (if IncludeUpper opts then upperChars else [])
  ++ (if IncludeLower opts then lowerChars else []).

(** The draw of one iteration of the filling loop. *)
Definition draw_at (opts : PasswordOptions) (chars : list rune) (i : Z)
    : M (rune * option error) :=
  if (i =? 0) && BeginWithLetter opts then getRandomLetter opts else secureRandomChar chars.

(** The three post-processing steps of [generatePassword], in its order. *)
Definition enforce (fuel : nat) (opts : PasswordOptions) (passwordStr : list rune)
    : M (list rune) :=
  let passwordStr :=
    if NoSimilar opts then removeSimilarCharacters passwordStr else passwordStr in
  let passwordStr :=
    if NoDuplicates opts then removeDuplicateCharacters passwordStr else passwordStr in
  if NoSequential opts
  then removeSequentialCharacters fuel passwordStr
  else mret passwordStr.

(** The first character must be a letter, no letter class is enabled, and
    another class is. *)
Definition letter_start_without_letters (opts : PasswordOptions) : Prop :=
  BeginWithLetter opts = true
  /\ IncludeUpper opts = false /\ IncludeLower opts = false
  /\ (IncludeSymbols opts = true \/ IncludeNumbers opts = true).

(** The request is invalid in the words of the error taxonomy: no class
    enabled, a leading letter asked for with no letter class, or a length
    or quantity that is not positive. *)
Definition invalid_by_taxonomy (opts : PasswordOptions) : Prop :=
  (IncludeSymbols opts = false /\ IncludeNumbers opts = false
   /\ IncludeUpper opts = false /\ IncludeLower opts = false)
  \/ (BeginWithLetter opts = true /\ IncludeUpper opts = false /\ IncludeLower opts = false)
  \/ Length opts <= 0
  \/ Quantity opts <= 0.

(** No character of the password is one of [similarCharacters]. *)
Definition no_similar (pw : list rune) : Prop :=
  Forall (fun c => c ∉ similarCharacters) pw.

(** A chain of single generations that all succeed, from read [pos] of the
    source to read [pos'], with the passwords they return. *)
Inductive generations (fuel : nat) (opts : PasswordOptions) (src : source)
    : nat -> list (list rune) -> nat -> Prop :=
  | generations_nil pos : generations fuel opts src pos [] pos
  | generations_cons pos password pos1 passwords pos' :
      generatePassword fuel opts src pos = Done (password, None) pos1 ->
      generations fuel opts src pos1 passwords pos' ->
      generations fuel opts src pos (password :: passwords) pos'.

(** * Properties *)

(** ** The literals *)

Lemma len_charSets : len charSets = 62.
Proof. reflexivity. Qed.

Lemma charSets_alphanumeric : Forall (fun c => 48 <= c <= 122) charSets.
Proof. compute_done. Qed.

Lemma charSets_is_ascii : Forall (fun c => 0 <= c < 128) charSets.
Proof. compute_done. Qed.

Lemma pools_are_ascii :
  Forall (fun c => 0 <= c < 128) (symbolChars ++ numberChars ++ upperChars ++ lowerChars).
Proof. compute_done. Qed.

Lemma wrap32_small z : - 2 ^ 31 <= z < 2 ^ 31 -> wrap32 z = z.
Proof. intros Hz. unfold wrap32. rewrite Z.mod_small; lia. Qed.

(** ** The monad *)

Lemma bind_eq {A B} (m : M A) (k : A -> M B) src pos :
  (m ≫= k) src pos =
  match m src pos with
  | Done a pos' => k a src pos'
  | Panicked p => Panicked p
  | OutOfFuel => OutOfFuel
  end.
Proof. reflexivity. Qed.

Lemma bind_Done {A B} (m : M A) (k : A -> M B) src pos a pos' :
  m src pos = Done a pos' -> (m ≫= k) src pos = k a src pos'.
Proof. intros H. rewrite bind_eq, H. reflexivity. Qed.

Lemma bind_Done_inv {A B} (m : M A) (k : A -> M B) src pos b pos' :
  (m ≫= k) src pos = Done b pos' ->
  exists a pos1, m src pos = Done a pos1 /\ k a src pos1 = Done b pos'.
Proof.
  rewrite bind_eq. destruct (m src pos) as [a pos1| |]; try discriminate.
  intros H. exists a, pos1. split; [reflexivity | exact H].
Qed.

Lemma ret_eq {A} (a : A) src pos : (mret a : M A) src pos = Done a pos.
Proof. reflexivity. Qed.

Lemma bind_ret_l {A B} (a : A) (k : A -> M B) : (mret a ≫= k) = k a.
Proof. reflexivity. Qed.

Ltac go_ret := repeat (rewrite bind_ret_l; cbv beta).

Lemma index_at_in_range (s : list rune) i :
  0 <= i < len s -> exists c, s !! Z.to_nat i = Some c /\ index_at s i = mret c.
Proof.
  intros [Hlo Hhi]. unfold len in Hhi.
  destruct (lookup_lt_is_Some_2 s (Z.to_nat i)) as [c Hc]; [lia |].
  exists c. split; [exact Hc |]. unfold index_at.
  destruct (Z.leb_spec 0 i); [| lia]. rewrite Hc. reflexivity.
Qed.

(** ** The character pool *)

Lemma buildCharacterSet_eq opts :
  buildCharacterSet opts =
    (if IncludeSymbols opts then symbolChars else [])
    ++ (if IncludeNumbers opts then numberChars else [])
    ++ (if IncludeUpper opts then upperChars else [])
    ++ (if IncludeLower opts then lowerChars else []).
Proof.
  unfold buildCharacterSet.
  destruct (IncludeSymbols opts), (IncludeNumbers opts),
    (IncludeUpper opts), (IncludeLower opts); reflexivity.
Qed.

Lemma buildCharacterSet_nil opts :
  buildCharacterSet opts = [] <->
  IncludeSymbols opts = false /\ IncludeNumbers opts = false
  /\ IncludeUpper opts = false /\ IncludeLower opts = false.
Proof.
  split.
  - intros H. apply (f_equal length) in H. revert H. unfold buildCharacterSet.
    destruct (IncludeSymbols opts), (IncludeNumbers opts),
      (IncludeUpper opts), (IncludeLower opts);
      vm_compute; intros H; try discriminate H; repeat split.
  - intros (H1 & H2 & H3 & H4). unfold buildCharacterSet.
    rewrite H1, H2, H3, H4. reflexivity.
Qed.

Lemma elem_of_buildCharacterSet opts c :
  c ∈ buildCharacterSet opts <-> in_enabled_class opts c.
Proof.
  rewrite buildCharacterSet_eq. unfold in_enabled_class.
  rewrite !elem_of_app.
  destruct (IncludeSymbols opts), (IncludeNumbers opts),
    (IncludeUpper opts), (IncludeLower opts);
    rewrite ?elem_of_nil; intuition congruence.
Qed.

(** C8. The pool is the concatenation of the enabled class literals in the
    order symbols, numbers, uppercase, lowercase; the literals are, value
    for value, the symbols [!@#$%^&*()-_=+[]{}|;:,.<>/?], the digits 0 to
    9, the letters A to Z and the letters a to z; and the pool is empty
    exactly when all four flags are false. *)
Theorem buildCharacterSet_contract (opts : PasswordOptions) :
  buildCharacterSet opts =
    (if IncludeSymbols opts then symbolChars else [])
    ++ (if IncludeNumbers opts then numberChars else [])
    ++ (if IncludeUpper opts then upperChars else [])
    ++ (if IncludeLower opts then lowerChars else [])
  /\ symbolChars = [33; 64; 35; 36; 37; 94; 38; 42; 40; 41; 45; 95; 61; 43;
                    91; 93; 123; 125; 124; 59; 58; 44; 46; 60; 62; 47; 63]
  /\ numberChars = map (fun n => 48 + Z.of_nat n) (seq 0 10)
  /\ upperChars = map (fun n => 65 + Z.of_nat n) (seq 0 26)
  /\ lowerChars = map (fun n => 97 + Z.of_nat n) (seq 0 26)
  /\ (buildCharacterSet opts = [] <->
      IncludeSymbols opts = false /\ IncludeNumbers opts = false
      /\ IncludeUpper opts = false /\ IncludeLower opts = false).
Proof.
  split; [apply buildCharacterSet_eq |].
  repeat (split; [reflexivity |]).
  apply buildCharacterSet_nil.
Qed.

(** ** The secure sampler *)

Lemma randInt_reads max src pos :
  1 < max ->
  randInt max src pos =
  match src pos with
  | Some k => Done (Some (k mod max), None) (S pos)
  | None => Done (None, Some ReaderError) (S pos)
  end.
Proof.
  intros Hmax. unfold randInt.
  destruct (Z.leb_spec max 0); [lia |].
  destruct (Z.eqb_spec max 1); [lia | reflexivity].
Qed.

(** What [getRandomRune] does on each kind of read. *)
Lemma getRandomRune_value src pos k :
  src pos = Some k ->
  exists c, getRandomRune src pos = Done c (S pos)
            /\ charSets !! Z.to_nat (k mod 62) = Some c.
Proof.
  intros Hk. unfold getRandomRune.
  rewrite bind_eq, len_charSets, randInt_reads, Hk by lia.
  assert (Hr : 0 <= k mod 62 < len charSets)
    by (rewrite len_charSets; apply Z.mod_pos_bound; lia).
  destruct (index_at_in_range charSets _ Hr) as (c & Hc & Hat).
  exists c. split; [| exact Hc].
  cbn [Int64]. rewrite bind_eq, ret_eq, Hat. reflexivity.
Qed.

Lemma getRandomRune_failure src pos :
  src pos = None -> getRandomRune src pos = Panicked NilDereference.
Proof.
  intros Hk. unfold getRandomRune.
  rewrite bind_eq, len_charSets, randInt_reads, Hk by lia. reflexivity.
Qed.

Lemma isSequential_space_after prev r :
  48 <= r <= 122 -> isSequential prev r space = false.
Proof.
  intros Hr. unfold isSequential, space.
  rewrite !(wrap32_small (r + 1)), !(wrap32_small (r - 1)) by lia.
  destruct (Z.eqb_spec 32 (r + 1)); [lia |].
  destruct (Z.eqb_spec 32 (r - 1)); [lia |].
  rewrite !andb_false_r. reflexivity.
Qed.

Lemma isSequential_space_before r next :
  48 <= r <= 122 -> isSequential r next space = false.
Proof.
  intros Hr. unfold isSequential, space.
  rewrite !(wrap32_small (r + 1)), !(wrap32_small (r - 1)) by lia.
  destruct (Z.eqb_spec next (r + 1)) as [-> | _].
  - rewrite !wrap32_small by lia.
    destruct (Z.eqb_spec 32 (r + 1 + 1)); [lia |].
    destruct (Z.eqb_spec (r + 1) (r - 1)); [lia | reflexivity].
  - destruct (Z.eqb_spec next (r - 1)) as [-> | _]; [| reflexivity].
    rewrite !wrap32_small by lia.
    destruct (Z.eqb_spec 32 (r - 1 - 1)); [lia | reflexivity].
Qed.

(** One iteration of the replacement loop on a read that delivers: the
    character drawn is appended, whatever the neighbours are. *)
Lemma generateNonSequential_loop_step fuel runes index acc src pos k :
  0 <= index <= len runes ->
  len acc < 3 ->
  src pos = Some k ->
  exists c, charSets !! Z.to_nat (k mod 62) = Some c
    /\ generateNonSequential_loop (S fuel) runes index acc src pos
       = generateNonSequential_loop fuel runes index (acc ++ [c]) src (S pos).
Proof.
  intros Hindex Hacc Hk.
  destruct (getRandomRune_value src pos k Hk) as (c & Hdraw & Hc).
  exists c. split; [exact Hc |].
  assert (Halnum : 48 <= c <= 122).
  { pose proof charSets_alphanumeric as Hall.
    rewrite Forall_forall in Hall. apply Hall.
    eapply list_elem_of_lookup_2, Hc. }
  cbn [generateNonSequential_loop].
  destruct (Z.ltb_spec (len acc) 3); [| lia].
  rewrite bind_eq, Hdraw.
  assert (Hleft :
    (if 0 <? index
     then prev ← index_at runes (index - 1); mret (isSequential prev c space)
     else mret false) src (S pos) = Done false (S pos)).
  { destruct (Z.ltb_spec 0 index); [| reflexivity].
    destruct (index_at_in_range runes (index - 1)) as (prev & _ & ->); [lia |].
    rewrite bind_eq, ret_eq, ret_eq, isSequential_space_after by exact Halnum.
    reflexivity. }
  rewrite bind_eq, Hleft.
  assert (Hright :
    (if index + 3 <? len runes
     then next ← index_at runes (index + 3); mret (isSequential c next space)
     else mret false) src (S pos) = Done false (S pos)).
  { destruct (Z.ltb_spec (index + 3) (len runes)); [| reflexivity].
    destruct (index_at_in_range runes (index + 3)) as (next & _ & ->); [lia |].
    rewrite bind_eq, ret_eq, ret_eq, isSequential_space_before by exact Halnum.
    reflexivity. }
  rewrite bind_eq, Hright. reflexivity.
Qed.

(** Three reads that deliver give the replacement: the loop uses exactly
    those three and returns the three characters they select. *)
Lemma generateNonSequentialChars_three fuel runes index src pos k1 k2 k3 :
  0 <= index <= len runes ->
  (3 <= fuel)%nat ->
  src pos = Some k1 -> src (S pos) = Some k2 -> src (S (S pos)) = Some k3 ->
  exists a b c,
    charSets !! Z.to_nat (k1 mod 62) = Some a
    /\ charSets !! Z.to_nat (k2 mod 62) = Some b
    /\ charSets !! Z.to_nat (k3 mod 62) = Some c
    /\ generateNonSequentialChars fuel runes index src pos = Done [a; b; c] (S (S (S pos))).
Proof.
  intros Hindex Hfuel H1 H2 H3.
  destruct fuel as [| [| [| fuel]]]; try lia.
  unfold generateNonSequentialChars.
  destruct (generateNonSequential_loop_step (S (S fuel)) runes index [] src pos k1)
    as (a & Ha & ->); [exact Hindex | reflexivity | exact H1 |].
  cbn [app].
  destruct (generateNonSequential_loop_step (S fuel) runes index [a] src (S pos) k2)
    as (b & Hb & ->); [exact Hindex | reflexivity | exact H2 |].
  cbn [app].
  destruct (generateNonSequential_loop_step fuel runes index [a; b] src (S (S pos)) k3)
    as (c & Hc & ->); [exact Hindex | reflexivity | exact H3 |].
  cbn [app].
  exists a, b, c. repeat (split; [assumption |]).
  destruct fuel; reflexivity.
Qed.

(** One iteration of the replacement loop on a read that fails: the error
    of [rand.Int] is dropped and its nil result dereferenced. *)
Lemma generateNonSequential_loop_failure fuel runes index acc src pos :
  len acc < 3 ->
  src pos = None ->
  generateNonSequential_loop (S fuel) runes index acc src pos = Panicked NilDereference.
Proof.
  intros Hacc Hk. cbn [generateNonSequential_loop].
  destruct (Z.ltb_spec (len acc) 3); [| lia].
  rewrite bind_eq, getRandomRune_failure by exact Hk. reflexivity.
Qed.

(** Whatever the source, the replacement loop ends within three
    iterations: with three characters, or in the panic of a failed read. *)
Lemma generateNonSequentialChars_outcome fuel runes index src pos :
  0 <= index <= len runes ->
  (3 <= fuel)%nat ->
  (exists a b c,
      generateNonSequentialChars fuel runes index src pos = Done [a; b; c] (S (S (S pos))))
  \/ (generateNonSequentialChars fuel runes index src pos = Panicked NilDereference
      /\ exists n, src n = None).
Proof.
  intros Hindex Hfuel.
  destruct (src pos) as [k1 |] eqn:H1; [destruct (src (S pos)) as [k2 |] eqn:H2;
    [destruct (src (S (S pos))) as [k3 |] eqn:H3 |] |].
  - left.
    destruct (generateNonSequentialChars_three fuel runes index src pos k1 k2 k3)
      as (a & b & c & _ & _ & _ & Hrun); try assumption.
    exists a, b, c. exact Hrun.
  - right. split; [| eauto].
    destruct fuel as [| [| [| fuel]]]; try lia.
    unfold generateNonSequentialChars.
    destruct (generateNonSequential_loop_step (S (S fuel)) runes index [] src pos k1)
      as (a & _ & ->); [exact Hindex | reflexivity | exact H1 |].
    cbn [app].
    destruct (generateNonSequential_loop_step (S fuel) runes index [a] src (S pos) k2)
      as (b & _ & ->); [exact Hindex | reflexivity | exact H2 |].
    cbn [app].
    apply generateNonSequential_loop_failure; [reflexivity | exact H3].
  - right. split; [| eauto].
    destruct fuel as [| [| fuel]]; try lia.
    unfold generateNonSequentialChars.
    destruct (generateNonSequential_loop_step (S fuel) runes index [] src pos k1)
      as (a & _ & ->); [exact Hindex | reflexivity | exact H1 |].
    cbn [app].
    apply generateNonSequential_loop_failure; [reflexivity | exact H2].
  - right. split; [| eauto].
    destruct fuel as [| fuel]; try lia.
    apply generateNonSequential_loop_failure; [reflexivity | exact H1].
Qed.

(** C10. On every password, at every index up to its length (so at every
    index where a run starts) and for every infinite sequence of draws,
    the replacement loop returns, given room for its three iterations,
    after exactly three draws and with exactly three characters, each the
    alphanumeric character its draw selects: the neighbour test discards
    no draw. *)
Theorem generateNonSequentialChars_terminates
    (runes : list rune) (index : Z) (vals : nat -> Z) (pos fuel : nat) :
  0 <= index <= len runes ->
  (3 <= fuel)%nat ->
  exists a b c,
    generateNonSequentialChars fuel runes index (reliable vals) pos
      = Done [a; b; c] (pos + 3)
    /\ charSets !! Z.to_nat (vals pos mod 62) = Some a
    /\ charSets !! Z.to_nat (vals (pos + 1)%nat mod 62) = Some b
    /\ charSets !! Z.to_nat (vals (pos + 2)%nat mod 62) = Some c.
Proof.
  intros Hindex Hfuel.
  destruct (generateNonSequentialChars_three fuel runes index (reliable vals) pos
              (vals pos) (vals (S pos)) (vals (S (S pos))))
    as (a & b & c & Ha & Hb & Hc & Hrun); try reflexivity; try assumption.
  exists a, b, c.
  replace (pos + 3)%nat with (S (S (S pos))) by lia.
  replace (pos + 1)%nat with (S pos) by lia.
  replace (pos + 2)%nat with (S (S pos)) by lia.
  auto.
Qed.

Lemma generateNonSequentialChars_terminates_witness :
  exists a b c,
    generateNonSequentialChars 3 (runes_of "xabcd") 1 (reliable (fun n => Z.of_nat n)) 0%nat
      = Done [a; b; c] 3%nat
    /\ charSets !! Z.to_nat (0 mod 62) = Some a
    /\ charSets !! Z.to_nat (1 mod 62) = Some b
    /\ charSets !! Z.to_nat (2 mod 62) = Some c.
Proof.
  apply (generateNonSequentialChars_terminates
           (runes_of "xabcd") 1 (fun n => Z.of_nat n) 0%nat 3%nat).
  - vm_compute. split; discriminate.
  - lia.
Defined.

(** ** Sequential removal *)

(** The scan never runs out of steps when it is given as many as there
    are characters left, and whatever the source it ends: with a string as
    long as the input, or in the panic of a failed read. *)
Lemma removeSequential_loop_outcome fuel runes src :
  (3 <= fuel)%nat ->
  forall steps i result pos,
    0 <= i <= len runes ->
    len runes - i <= Z.of_nat steps ->
    len result = i ->
    (exists s pos',
        removeSequential_loop steps fuel runes i result src pos = Done s pos'
        /\ len s = len runes)
    \/ (removeSequential_loop steps fuel runes i result src pos = Panicked NilDereference
        /\ exists n, src n = None).
Proof.
  intros Hfuel. induction steps as [| steps IH]; intros i result pos Hi Hsteps Hres.
  - cbn [removeSequential_loop].
    destruct (Z.ltb_spec i (len runes)); [lia |].
    left. exists result, pos. split; [reflexivity | lia].
  - cbn [removeSequential_loop].
    destruct (Z.ltb_spec i (len runes)) as [Hlt | Hge];
      [| left; exists result, pos; split; [reflexivity | lia]].
    destruct (index_at_in_range runes i) as (c0 & _ & Hc0); [lia |].
    assert (Hgrow : forall l : list rune, len (result ++ l) = i + len l).
    { intros l. unfold len in *. rewrite length_app. lia. }
    destruct (Z.ltb_spec (i + 2) (len runes)) as [Hrun | Hend].
    + destruct (index_at_in_range runes (i + 1)) as (b & _ & Hb); [lia |].
      destruct (index_at_in_range runes (i + 2)) as (c & _ & Hc); [lia |].
      rewrite Hc0, Hb, Hc. go_ret.
      destruct (isSequential c0 b c).
      * rewrite bind_eq.
        destruct (generateNonSequentialChars_outcome fuel runes i src pos)
          as [(x & y & z & ->) | [-> Hfail]]; [lia | exact Hfuel | | right; auto].
        apply IH; [lia | lia |]. rewrite Hgrow. unfold len; cbn [length]. lia.
      * go_ret. apply IH; [lia | lia |]. rewrite Hgrow. reflexivity.
    + rewrite Hc0. go_ret. apply IH; [lia | lia |]. rewrite Hgrow. reflexivity.
Qed.

Lemma removeSequentialCharacters_outcome fuel password src pos :
  (3 <= fuel)%nat ->
  (exists s pos',
      removeSequentialCharacters fuel password src pos = Done s pos'
      /\ length s = length password)
  \/ (removeSequentialCharacters fuel password src pos = Panicked NilDereference
      /\ exists n, src n = None).
Proof.
  intros Hfuel. unfold removeSequentialCharacters.
  destruct (removeSequential_loop_outcome fuel password src Hfuel
              (length password) 0 [] pos) as [(s & pos' & Hrun & Hlen) | Hpanic].
  - unfold len. lia.
  - unfold len. lia.
  - reflexivity.
  - left. exists s, pos'. split; [exact Hrun |]. unfold len in Hlen. lia.
  - right. exact Hpanic.
Qed.

(** C9. For every input string and every sequence of values the entropy
    source produces, the sequential-removal stage returns (given room for
    the three iterations of each replacement) a string of exactly the
    length of its input. *)
Theorem removeSequentialCharacters_preserves_length
    (password : list rune) (vals : nat -> Z) (pos fuel : nat) :
  (3 <= fuel)%nat ->
  exists s pos',
    removeSequentialCharacters fuel password (reliable vals) pos = Done s pos'
    /\ length s = length password.
Proof.
  intros Hfuel.
  destruct (removeSequentialCharacters_outcome fuel password (reliable vals) pos Hfuel)
    as [Hdone | [_ (n & Hn)]]; [exact Hdone | discriminate Hn].
Qed.

Lemma removeSequentialCharacters_preserves_length_witness :
  exists s pos',
    removeSequentialCharacters 3 (runes_of "xabcdcbay") (reliable (fun n => Z.of_nat n)) 0%nat
      = Done s pos'
    /\ length s = 9%nat.
Proof.
  apply (removeSequentialCharacters_preserves_length
           (runes_of "xabcdcbay") (fun n => Z.of_nat n) 0%nat 3%nat).
  lia.
Defined.

(** ** Sampling from a pool *)

Lemma len_pos_of_nonempty (chars : list rune) : chars <> [] -> 0 < len chars.
Proof. destruct chars; [congruence |]. intros _. unfold len. cbn [length]. lia. Qed.

Lemma secureRandomChar_nil src pos :
  secureRandomChar [] src pos = Panicked RandIntArgument.
Proof. reflexivity. Qed.

(** On a pool that is not empty the sampler returns: a character of the
    pool, or the error for a read that failed. *)
Lemma secureRandomChar_spec chars src pos :
  chars <> [] ->
  exists c err pos',
    secureRandomChar chars src pos = Done (c, err) pos'
    /\ match err with
       | None => c ∈ chars
       | Some e => e = errSecureRandom /\ src pos = None
       end.
Proof.
  intros Hne. pose proof (len_pos_of_nonempty chars Hne) as Hlen.
  assert (Hpick : forall i pos1, 0 <= i < len chars ->
            exists c, c ∈ chars
              /\ (i0 ← Int64 (Some i); c0 ← index_at chars i0; mret (c0, None)) src pos1
                 = Done (c, @None error) pos1).
  { intros i pos1 Hi.
    destruct (index_at_in_range chars i Hi) as (c & Hc & Hat).
    exists c. split; [eapply list_elem_of_lookup_2, Hc |].
    cbn [Int64]. go_ret. rewrite Hat. go_ret. reflexivity. }
  unfold secureRandomChar. rewrite bind_eq. unfold randInt.
  destruct (Z.leb_spec (len chars) 0); [lia |].
  destruct (Z.eqb_spec (len chars) 1) as [Hone | Hmany].
  - destruct (Hpick 0 pos) as (c & Hin & Hrun); [lia |].
    exists c, None, pos. split; [exact Hrun | exact Hin].
  - destruct (src pos) as [k |] eqn:Hk.
    + destruct (Hpick (k mod len chars) (S pos)) as (c & Hin & Hrun);
        [apply Z.mod_pos_bound; lia |].
      exists c, None, (S pos). split; [exact Hrun | exact Hin].
    + exists 0, (Some errSecureRandom), (S pos). split; [reflexivity | auto].
Qed.

(** Whatever the pool, the only error the sampler returns is its own. *)
Lemma secureRandomChar_error chars src pos c e pos' :
  secureRandomChar chars src pos = Done (c, Some e) pos' -> e = errSecureRandom.
Proof.
  destruct chars as [| c0 chars]; [rewrite secureRandomChar_nil; discriminate |].
  destruct (secureRandomChar_spec (c0 :: chars) src pos) as (c1 & err & pos1 & Hrun & Hres);
    [discriminate |].
  rewrite Hrun. intros [= <- -> <-]. tauto.
Qed.

Lemma getRandomLetter_eq opts : getRandomLetter opts = secureRandomChar (letters opts).
Proof.
  unfold getRandomLetter, letters.
  destruct (IncludeUpper opts), (IncludeLower opts); reflexivity.
Qed.

Lemma letters_nonempty opts :
  IncludeUpper opts || IncludeLower opts = true -> letters opts <> [].
Proof.
  unfold letters. intros H Hnil. apply (f_equal length) in Hnil. revert H Hnil.
  destruct (IncludeUpper opts), (IncludeLower opts); vm_compute; congruence.
Qed.

Lemma letters_in_pool opts c : c ∈ letters opts -> c ∈ buildCharacterSet opts.
Proof.
  rewrite buildCharacterSet_eq. unfold letters. rewrite !elem_of_app. tauto.
Qed.

Lemma draw_at_error opts chars i src pos c e pos' :
  draw_at opts chars i src pos = Done (c, Some e) pos' -> e = errSecureRandom.
Proof.
  unfold draw_at. rewrite getRandomLetter_eq.
  destruct ((i =? 0) && BeginWithLetter opts); apply secureRandomChar_error.
Qed.

Lemma draw_at_spec opts i src pos :
  buildCharacterSet opts <> [] ->
  (BeginWithLetter opts = true -> IncludeUpper opts || IncludeLower opts = true) ->
  exists c err pos',
    draw_at opts (buildCharacterSet opts) i src pos = Done (c, err) pos'
    /\ match err with
       | None => c ∈ buildCharacterSet opts
       | Some e => e = errSecureRandom /\ src pos = None
       end.
Proof.
  intros Hpool Hletter. unfold draw_at. rewrite getRandomLetter_eq.
  destruct (i =? 0); cbn [andb]; [| apply secureRandomChar_spec, Hpool].
  destruct (BeginWithLetter opts); [| apply secureRandomChar_spec, Hpool].
  destruct (secureRandomChar_spec (letters opts) src pos)
    as (c & err & pos' & Hrun & Hres); [apply letters_nonempty; auto |].
  exists c, err, pos'. split; [exact Hrun |].
  destruct err; [exact Hres | apply letters_in_pool, Hres].
Qed.

Lemma fill_loop_S steps opts chars i password :
  fill_loop (S steps) opts chars i password =
  (draw_at opts chars i ≫= fun '(c, err) =>
     match err with
     | Some e => mret ([], Some e)
     | None => fill_loop steps opts chars (i + 1) (<[Z.to_nat i := c]> password)
     end).
Proof. reflexivity. Qed.

(** The filling loop returns an error only as the empty string with the
    sampler's error. *)
Lemma fill_loop_error opts chars steps :
  forall i password src pos pw e pos',
    fill_loop steps opts chars i password src pos = Done (pw, Some e) pos' ->
    pw = [] /\ e = errSecureRandom.
Proof.
  induction steps as [| steps IH]; intros i password src pos pw e pos'.
  - cbn [fill_loop]. rewrite ret_eq. discriminate.
  - rewrite fill_loop_S, bind_eq.
    destruct (draw_at opts chars i src pos) as [[c [e1 |]] pos1 | |] eqn:Hdraw;
      try discriminate.
    + rewrite ret_eq. intros [= <- <- <-].
      split; [reflexivity | eapply draw_at_error, Hdraw].
    + apply IH.
Qed.

(** On a request with a pool and, where the first character must be a
    letter, with a letter class, the filling loop returns: the buffer
    filled with characters of the pool, or the error of a failed read. *)
Lemma fill_loop_spec opts :
  buildCharacterSet opts <> [] ->
  (BeginWithLetter opts = true -> IncludeUpper opts || IncludeLower opts = true) ->
  forall steps i password src pos,
    0 <= i -> i + Z.of_nat steps = len password ->
    Forall (fun c => c ∈ buildCharacterSet opts) (take (Z.to_nat i) password) ->
    exists pw err pos',
      fill_loop steps opts (buildCharacterSet opts) i password src pos = Done (pw, err) pos'
      /\ match err with
         | None => len pw = len password
                   /\ Forall (fun c => c ∈ buildCharacterSet opts) pw
         | Some e => pw = [] /\ e = errSecureRandom /\ exists n, src n = None
         end.
Proof.
  intros Hpool Hletter.
  induction steps as [| steps IH]; intros i password src pos Hi Hlen Hdone.
  - exists password, None, pos. split; [reflexivity |]. split; [reflexivity |].
    rewrite take_ge in Hdone; [exact Hdone |]. unfold len in Hlen. lia.
  - rewrite fill_loop_S, bind_eq.
    destruct (draw_at_spec opts i src pos Hpool Hletter)
      as (c & [e |] & pos1 & -> & Hres).
    + exists [], (Some e), pos1. split; [reflexivity |].
      destruct Hres as [-> Hfail]. eauto.
    + assert (Hin : (Z.to_nat i < length password)%nat) by (unfold len in Hlen; lia).
      destruct (IH (i + 1) (<[Z.to_nat i := c]> password) src pos1)
        as (pw & err & pos' & Hrun & Hpost).
      * lia.
      * unfold len in *. rewrite length_insert. lia.
      * replace (Z.to_nat (i + 1)) with (S (Z.to_nat i)) by lia.
        rewrite (take_S_r _ _ c) by (apply list_lookup_insert_eq, Hin).
        rewrite take_insert_ge by lia.
        apply Forall_app. split; [exact Hdone |]. apply Forall_singleton, Hres.
      * exists pw, err, pos'. split; [exact Hrun |].
        destruct err; [exact Hpost |].
        unfold len in *. rewrite length_insert in Hpost. exact Hpost.
Qed.

(** ** One password *)

Lemma generatePassword_no_class fuel opts src pos :
  buildCharacterSet opts = [] ->
  generatePassword fuel opts src pos = Done ([], Some errNoCharacterType) pos.
Proof.
  intros Hnil. unfold generatePassword.
  rewrite bool_decide_eq_true_2 by exact Hnil. reflexivity.
Qed.

Lemma generatePassword_pool fuel opts :
  buildCharacterSet opts <> [] ->
  generatePassword fuel opts =
  (password ← make_bytes (Length opts);
   '(password, err) ← fill_loop (Z.to_nat (Length opts)) opts (buildCharacterSet opts) 0 password;
   match err with
   | Some e => mret ([], Some e)
   | None => passwordStr ← enforce fuel opts password; mret (passwordStr, None)
   end).
Proof.
  intros Hpool. unfold generatePassword.
  rewrite bool_decide_eq_false_2 by exact Hpool. reflexivity.
Qed.

(** What a return of [generatePassword] tells: an error comes with the
    empty string and is the configuration error, raised before any read,
    or the sampler's; a password is what the three post-processing steps
    make of a filled buffer. *)
Lemma generatePassword_inv fuel opts src pos pw err pos' :
  generatePassword fuel opts src pos = Done (pw, err) pos' ->
  match err with
  | Some e =>
      pw = []
      /\ ((buildCharacterSet opts = [] /\ e = errNoCharacterType /\ pos' = pos)
          \/ (buildCharacterSet opts <> [] /\ e = errSecureRandom))
  | None =>
      buildCharacterSet opts <> [] /\ 0 <= Length opts
      /\ exists raw pos1,
           fill_loop (Z.to_nat (Length opts)) opts (buildCharacterSet opts) 0
             (replicate (Z.to_nat (Length opts)) 0) src pos = Done (raw, None) pos1
           /\ enforce fuel opts raw src pos1 = Done pw pos'
  end.
Proof.
  destruct (decide (buildCharacterSet opts = [])) as [Hnil | Hpool].
  - rewrite generatePassword_no_class by exact Hnil.
    intros [= <- <- <-]. auto.
  - rewrite generatePassword_pool by exact Hpool.
    rewrite bind_eq. unfold make_bytes.
    destruct (Z.ltb_spec (Length opts) 0) as [Hneg | Hlen]; [discriminate |].
    rewrite ret_eq, bind_eq.
    destruct (fill_loop _ _ _ _ _ src pos) as [[raw [e |]] pos1 | |] eqn:Hfill;
      try discriminate.
    + rewrite ret_eq. intros [= <- <- <-].
      apply fill_loop_error in Hfill as [_ ->]. auto.
    + rewrite bind_eq.
      destruct (enforce fuel opts raw src pos1) as [s pos2 | |] eqn:Henf;
        try discriminate.
      rewrite ret_eq. intros [= <- <- <-].
      split; [exact Hpool |]. split; [exact Hlen |]. eauto.
Qed.

(** ** The batch *)

Lemma GeneratePasswords_loop_S n fuel opts passwords :
  GeneratePasswords_loop (S n) fuel opts passwords =
  (generatePassword fuel opts ≫= fun '(password, err) =>
     match err with
     | Some e => mret ([], Some e)
     | None => GeneratePasswords_loop n fuel opts (passwords ++ [password])
     end).
Proof. reflexivity. Qed.

(** A chain of successful generations is that many iterations of the loop. *)
Lemma GeneratePasswords_loop_generations fuel opts src pos done pos1 :
  generations fuel opts src pos done pos1 ->
  forall n passwords,
    GeneratePasswords_loop (length done + n) fuel opts passwords src pos
    = GeneratePasswords_loop n fuel opts (passwords ++ done) src pos1.
Proof.
  induction 1 as [pos | pos password pos1 rest pos' Hgen _ IH]; intros n passwords.
  - rewrite app_nil_r. reflexivity.
  - cbn [length Nat.add]. rewrite GeneratePasswords_loop_S, bind_eq, Hgen, IH.
    rewrite <- app_assoc. reflexivity.
Qed.

(** An error return of the loop: no list, at least one iteration, and the
    error of a single generation. *)
Lemma GeneratePasswords_loop_error fuel opts src n :
  forall passwords pos pws e pos',
    GeneratePasswords_loop n fuel opts passwords src pos = Done (pws, Some e) pos' ->
    pws = [] /\ (0 < n)%nat
    /\ ((buildCharacterSet opts = [] /\ e = errNoCharacterType)
        \/ (buildCharacterSet opts <> [] /\ e = errSecureRandom)).
Proof.
  induction n as [| n IH]; intros passwords pos pws e pos'.
  - cbn [GeneratePasswords_loop]. rewrite ret_eq. discriminate.
  - rewrite GeneratePasswords_loop_S, bind_eq.
    destruct (generatePassword fuel opts src pos) as [[pw [e1 |]] pos1 | |] eqn:Hgen;
      try discriminate.
    + rewrite ret_eq. intros [= <- <- <-].
      apply generatePassword_inv in Hgen as [_ Hkind].
      split; [reflexivity |]. split; [lia |]. tauto.
    + intros Hrest. apply IH in Hrest as (-> & _ & Hkind).
      split; [reflexivity |]. split; [lia | exact Hkind].
Qed.

(** Every password the loop returns has a property that the passwords it
    started with and those of single generations have. *)
Lemma GeneratePasswords_loop_Forall fuel opts src (P : list rune -> Prop) :
  (forall pos pw pos', generatePassword fuel opts src pos = Done (pw, None) pos' -> P pw) ->
  forall n passwords pos pws err pos',
    Forall P passwords ->
    GeneratePasswords_loop n fuel opts passwords src pos = Done (pws, err) pos' ->
    Forall P pws.
Proof.
  intros Hone. induction n as [| n IH]; intros passwords pos pws err pos' Hacc.
  - cbn [GeneratePasswords_loop]. rewrite ret_eq. intros [= <- <- <-]. exact Hacc.
  - rewrite GeneratePasswords_loop_S, bind_eq.
    destruct (generatePassword fuel opts src pos) as [[pw [e1 |]] pos1 | |] eqn:Hgen;
      try discriminate.
    + rewrite ret_eq. intros [= <- <- <-]. constructor.
    + apply IH. apply Forall_app. split; [exact Hacc |].
      apply Forall_singleton. eapply Hone, Hgen.
Qed.

(** The loop returns when every single generation does, and then with
    passwords that all have a property those of single generations have;
    it returns an error only if some read of the source failed. *)
Lemma GeneratePasswords_loop_total fuel opts src (P : list rune -> Prop) :
  (forall pos, exists pw err pos',
      generatePassword fuel opts src pos = Done (pw, err) pos'
      /\ match err with
         | None => P pw
         | Some _ => exists n, src n = None
         end) ->
  forall n passwords pos,
    Forall P passwords ->
    exists pws err pos',
      GeneratePasswords_loop n fuel opts passwords src pos = Done (pws, err) pos'
      /\ Forall P pws
      /\ match err with
         | None => length pws = (length passwords + n)%nat
         | Some _ => exists n, src n = None
         end.
Proof.
  intros Hone. induction n as [| n IH]; intros passwords pos Hacc.
  - exists passwords, None, pos. split; [reflexivity |]. split; [exact Hacc | lia].
  - rewrite GeneratePasswords_loop_S, bind_eq.
    destruct (Hone pos) as (pw & [e |] & pos1 & -> & Hres).
    + exists [], (Some e), pos1. split; [reflexivity |]. split; [constructor | exact Hres].
    + destruct (IH (passwords ++ [pw]) pos1) as (pws & err & pos' & Hrun & Hall & Hcount).
      { apply Forall_app. split; [exact Hacc |]. apply Forall_singleton, Hres. }
      exists pws, err, pos'. split; [exact Hrun |]. split; [exact Hall |].
      destruct err; [exact Hcount |].
      rewrite Hcount, length_app. cbn [length]. lia.
Qed.

(** With no exclusion flag the post-processing leaves the buffer as it is. *)
Lemma enforce_plain fuel opts passwordStr :
  NoSimilar opts = false -> NoDuplicates opts = false -> NoSequential opts = false ->
  enforce fuel opts passwordStr = mret passwordStr.
Proof. intros H1 H2 H3. unfold enforce. rewrite H1, H2, H3. reflexivity. Qed.

Lemma generatePassword_plain fuel opts src pos :
  buildCharacterSet opts <> [] -> 0 <= Length opts ->
  (BeginWithLetter opts = true -> IncludeUpper opts || IncludeLower opts = true) ->
  NoSimilar opts = false -> NoDuplicates opts = false -> NoSequential opts = false ->
  exists pw err pos',
    generatePassword fuel opts src pos = Done (pw, err) pos'
    /\ match err with
       | None => len pw = Length opts /\ Forall (fun c => c ∈ buildCharacterSet opts) pw
       | Some _ => exists n, src n = None
       end.
Proof.
  intros Hpool Hlen Hletter H1 H2 H3.
  rewrite generatePassword_pool by exact Hpool.
  rewrite bind_eq. unfold make_bytes.
  destruct (Z.ltb_spec (Length opts) 0) as [Hneg | _]; [lia |].
  rewrite ret_eq, bind_eq.
  destruct (fill_loop_spec opts Hpool Hletter (Z.to_nat (Length opts)) 0
              (replicate (Z.to_nat (Length opts)) 0) src pos)
    as (raw & [e |] & pos1 & -> & Hres).
  - lia.
  - unfold len. rewrite length_replicate. lia.
  - constructor.
  - exists [], (Some e), pos1. split; [reflexivity |]. tauto.
  - exists raw, None, pos1. rewrite enforce_plain by assumption.
    split; [reflexivity |]. destruct Hres as [Hraw Hall].
    split; [| exact Hall].
    rewrite Hraw. unfold len. rewrite length_replicate. lia.
Qed.

(** C6. For every valid request with no exclusion flag, whatever the
    source delivers, the batch returns, and every password it returns has
    exactly [Length] characters, each from the alphabet of an enabled
    class; with a source that never fails it returns [Quantity] of them
    and no error. *)
Theorem GeneratePasswords_length_and_alphabet
    (opts : PasswordOptions) (fuel : nat) (src : source) (pos : nat) :
  valid_request opts ->
  NoSimilar opts = false -> NoDuplicates opts = false -> NoSequential opts = false ->
  exists pws err pos',
    GeneratePasswords fuel opts src pos = Done (pws, err) pos'
    /\ Forall (fun pw => len pw = Length opts /\ Forall (in_enabled_class opts) pw) pws
    /\ ((forall n, is_Some (src n)) -> err = None /\ len pws = Quantity opts).
Proof.
  intros (Hlen & Hquantity & Hclass & Hletter) H1 H2 H3.
  assert (Hpool : buildCharacterSet opts <> []).
  { rewrite buildCharacterSet_nil. intros (Ha & Hb & Hc & Hd).
    rewrite Ha, Hb, Hc, Hd in Hclass. discriminate. }
  unfold GeneratePasswords.
  destruct (GeneratePasswords_loop_total fuel opts src
              (fun pw => len pw = Length opts /\ Forall (in_enabled_class opts) pw))
    with (n := Z.to_nat (Quantity opts)) (passwords := @nil (list rune)) (pos := pos)
    as (pws & err & pos' & Hrun & Hall & Hcount).
  - intros pos0.
    destruct (generatePassword_plain fuel opts src pos0)
      as (pw & err & pos1 & Hgen & Hres); try assumption; [lia |].
    exists pw, err, pos1. split; [exact Hgen |].
    destruct err; [exact Hres |]. destruct Hres as [Hl Hin].
    split; [exact Hl |]. eapply Forall_impl; [exact Hin |].
    intros c. apply elem_of_buildCharacterSet.
  - constructor.
  - exists pws, err, pos'. split; [exact Hrun |]. split; [exact Hall |].
    intros Hreliable. destruct err as [e |].
    + destruct Hcount as (n & Hn). specialize (Hreliable n).
      rewrite Hn in Hreliable. destruct Hreliable; discriminate.
    + split; [reflexivity |]. unfold len. rewrite Hcount. cbn [length]. lia.
Qed.

Lemma GeneratePasswords_length_and_alphabet_witness :
  exists pws err pos',
    GeneratePasswords 3 (request 6 3 true true true true false false false false)
      (reliable (fun n => 7 * Z.of_nat n)) 0%nat = Done (pws, err) pos'
    /\ Forall (fun pw => len pw = 6
                 /\ Forall (in_enabled_class
                              (request 6 3 true true true true false false false false)) pw)
         pws
    /\ ((forall n, is_Some (reliable (fun n => 7 * Z.of_nat n) n)) ->
        err = None /\ len pws = 3).
Proof.
  apply (GeneratePasswords_length_and_alphabet
           (request 6 3 true true true true false false false false) 3
           (reliable (fun n => 7 * Z.of_nat n)) 0%nat).
  - unfold valid_request. cbn. repeat split; try lia; reflexivity.
  - reflexivity.
  - reflexivity.
  - reflexivity.
Defined.

(** C7. After a chain of successful single generations, the batch with
    [Quantity] equal to their number returns exactly their passwords, that
    many strings, and no error; and if fewer than [Quantity] have
    succeeded and the next single generation returns an error, the batch
    returns that error with [nil], not the passwords made so far. *)
Theorem GeneratePasswords_batch
    (fuel : nat) (opts : PasswordOptions) (src : source) (pos : nat)
    (done : list (list rune)) (pos1 : nat) :
  generations fuel opts src pos done pos1 ->
  (length done = Z.to_nat (Quantity opts) ->
   GeneratePasswords fuel opts src pos = Done (done, None) pos1)
  /\ (forall pw e pos',
        (length done < Z.to_nat (Quantity opts))%nat ->
        generatePassword fuel opts src pos1 = Done (pw, Some e) pos' ->
        GeneratePasswords fuel opts src pos = Done ([], Some e) pos').
Proof.
  intros Hchain. unfold GeneratePasswords. split.
  - intros Hall.
    replace (Z.to_nat (Quantity opts)) with (length done + 0)%nat by lia.
    rewrite (GeneratePasswords_loop_generations _ _ _ _ _ _ Hchain).
    reflexivity.
  - intros pw e pos' Hfewer Hfail.
    replace (Z.to_nat (Quantity opts))
      with (length done + S (Z.to_nat (Quantity opts) - S (length done)))%nat by lia.
    rewrite (GeneratePasswords_loop_generations _ _ _ _ _ _ Hchain).
    rewrite GeneratePasswords_loop_S, bind_eq, Hfail. reflexivity.
Qed.

Lemma GeneratePasswords_batch_witness :
  generations 3 (request 2 2 false true false false false false false false)
    (draws [0; 1; 5]) 0 [[48; 49]] 2
  /\ GeneratePasswords 3 (request 2 2 false true false false false false false false)
       (draws [0; 1; 5]) 0%nat
     = Done ([], Some errSecureRandom) 4%nat.
Proof.
  assert (Hchain : generations 3 (request 2 2 false true false false false false false false)
                     (draws [0; 1; 5]) 0 [[48; 49]] 2).
  { apply (generations_cons _ _ _ 0%nat [48; 49] 2%nat [] 2%nat);
      [vm_compute; reflexivity | apply generations_nil]. }
  split; [exact Hchain |].
  apply (proj2 (GeneratePasswords_batch 3
                  (request 2 2 false true false false false false false false)
                  (draws [0; 1; 5]) 0%nat [[48; 49]] 2%nat Hchain) [] errSecureRandom 4%nat).
  - cbn. lia.
  - reflexivity.
Defined.

(** ** Configuration errors *)

Lemma getRandomLetter_without_letters opts src pos :
  IncludeUpper opts = false -> IncludeLower opts = false ->
  getRandomLetter opts src pos = Panicked RandIntArgument.
Proof. intros H1 H2. unfold getRandomLetter. rewrite H1, H2. reflexivity. Qed.

(** C4, as the code has it. For a request that does not ask for a leading
    letter with only non-letter classes enabled: the batch returns the
    configuration error exactly when [Quantity] is positive and no class is
    enabled, and then with [nil] and without a read of the source. A
    [Length] or [Quantity] that is not positive is not an error. *)
Theorem GeneratePasswords_invalid_configuration
    (opts : PasswordOptions) (fuel : nat) (src : source) (pos : nat) :
  ~ letter_start_without_letters opts ->
  ((exists pws pos',
       GeneratePasswords fuel opts src pos = Done (pws, Some errNoCharacterType) pos')
   <-> (0 < Quantity opts
        /\ IncludeSymbols opts = false /\ IncludeNumbers opts = false
        /\ IncludeUpper opts = false /\ IncludeLower opts = false))
  /\ (forall pws pos',
        GeneratePasswords fuel opts src pos = Done (pws, Some errNoCharacterType) pos' ->
        pws = [] /\ pos' = pos).
Proof.
  intros _.
  assert (Hfwd : forall pws pos',
    GeneratePasswords fuel opts src pos = Done (pws, Some errNoCharacterType) pos' ->
    0 < Quantity opts /\ buildCharacterSet opts = []).
  { intros pws pos' Hrun. unfold GeneratePasswords in Hrun.
    apply GeneratePasswords_loop_error in Hrun as (_ & Hn & [[Hnil _] | [_ Hkind]]).
    - split; [lia | exact Hnil].
    - discriminate Hkind. }
  assert (Hbwd : 0 < Quantity opts -> buildCharacterSet opts = [] ->
    GeneratePasswords fuel opts src pos = Done ([], Some errNoCharacterType) pos).
  { intros Hq Hnil. unfold GeneratePasswords.
    replace (Z.to_nat (Quantity opts)) with (S (Z.to_nat (Quantity opts) - 1)) by lia.
    rewrite GeneratePasswords_loop_S, bind_eq, generatePassword_no_class by exact Hnil.
    reflexivity. }
  split; [split |].
  - intros (pws & pos' & Hrun). apply Hfwd in Hrun as [Hq Hnil].
    split; [exact Hq | apply buildCharacterSet_nil, Hnil].
  - intros [Hq Hflags]. exists [], pos. apply Hbwd; [exact Hq |].
    apply buildCharacterSet_nil, Hflags.
  - intros pws pos' Hrun. pose proof (Hfwd _ _ Hrun) as [Hq Hnil].
    rewrite (Hbwd Hq Hnil) in Hrun. injection Hrun as <- <-. auto.
Qed.

Lemma GeneratePasswords_invalid_configuration_witness :
  exists pws pos',
    GeneratePasswords 3 (request 8 2 false false false false false true true true)
      (draws []) 0%nat = Done (pws, Some errNoCharacterType) pos'.
Proof.
  apply (proj1 (GeneratePasswords_invalid_configuration
                  (request 8 2 false false false false false true true true) 3
                  (draws []) 0%nat
                  (fun H => match H with
                            | conj Hletter _ => Bool.diff_false_true Hletter
                            end))).
  cbn. repeat split; reflexivity.
Defined.

(** C4, against the claim as worded: a request with [Quantity] 0 is
    invalid in the words of the taxonomy, yet the batch returns no error
    but the empty list. *)
Lemma GeneratePasswords_quantity_zero_not_rejected :
  ~ ((exists pws e pos',
        GeneratePasswords 3 (request 8 0 false false false true false false false false)
          (draws [0; 1; 2]) 0%nat = Done (pws, Some e) pos')
     <-> invalid_by_taxonomy (request 8 0 false false false true false false false false)).
Proof.
  intros [_ Hback].
  destruct Hback as (pws & e & pos' & Hrun).
  - right. right. right. cbn. lia.
  - vm_compute in Hrun. discriminate Hrun.
Qed.

(** Nor is a [Length] of 0 rejected: the passwords are empty. *)
Lemma GeneratePasswords_length_zero_not_rejected :
  GeneratePasswords 3 (request 0 2 false false false true false false false false)
    (draws [0; 1; 2]) 0%nat = Done ([[]; []], None) 0%nat.
Proof. reflexivity. Qed.

(** A leading letter asked for with digits only: the call panics in
    [rand.Int] rather than return an error. *)
Lemma GeneratePasswords_letter_start_panics :
  GeneratePasswords 3 (request 8 1 false true false false true false false false)
    (draws [0; 1; 2]) 0%nat = Panicked RandIntArgument.
Proof. reflexivity. Qed.

(** ** Similar and duplicate removal *)

Lemma elem_of_ReplaceAll_remove s old c :
  c ∈ ReplaceAll s old [] <-> c ∈ s /\ c <> old.
Proof.
  induction s as [| x s IH]; cbn [ReplaceAll].
  - rewrite elem_of_nil. tauto.
  - rewrite elem_of_app, IH, elem_of_cons.
    destruct (Z.eqb_spec x old) as [-> | Hne].
    + rewrite elem_of_nil. intuition congruence.
    + rewrite list_elem_of_singleton. intuition congruence.
Qed.

Lemma elem_of_remove_all (chars : list rune) :
  forall s c,
    c ∈ foldl (fun password char => ReplaceAll password char []) s chars
    <-> c ∈ s /\ c ∉ chars.
Proof.
  induction chars as [| x chars IH]; intros s c; cbn [foldl].
  - rewrite elem_of_nil. tauto.
  - rewrite IH, elem_of_ReplaceAll_remove, elem_of_cons. tauto.
Qed.

Lemma elem_of_removeSimilarCharacters password c :
  c ∈ removeSimilarCharacters password <-> c ∈ password /\ c ∉ similarCharacters.
Proof. apply elem_of_remove_all. Qed.

Lemma removeSimilarCharacters_no_similar password :
  no_similar (removeSimilarCharacters password).
Proof.
  apply Forall_forall. intros c Hc.
  apply elem_of_removeSimilarCharacters in Hc. tauto.
Qed.

(** The loop of duplicate removal keeps the builder free of repeats, as
    long as [seen] marks exactly the characters written. *)
Lemma removeDuplicate_loop_spec rest :
  forall (seen : gmap Z bool) (result : list rune),
    (forall c, default false (seen !! c) = true <-> c ∈ result) ->
    NoDup result ->
    NoDup (removeDuplicate_loop rest seen result)
    /\ (forall c, c ∈ removeDuplicate_loop rest seen result <-> c ∈ result \/ c ∈ rest).
Proof.
  induction rest as [| x rest IH]; intros seen result Hseen Hnodup; cbn [removeDuplicate_loop].
  - split; [exact Hnodup |]. intros c. rewrite elem_of_nil. tauto.
  - destruct (default false (seen !! x)) eqn:Hx; cbn [negb].
    + destruct (IH seen result Hseen Hnodup) as [Hnd Hin].
      split; [exact Hnd |]. intros c. rewrite Hin, elem_of_cons.
      apply Hseen in Hx. clear - Hx. intuition (subst; auto).
    + assert (Hfresh : x ∉ result).
      { intros Hin. apply Hseen in Hin. congruence. }
      destruct (IH (<[x := true]> seen) (result ++ [x])) as [Hnd Hin].
      * intros c. rewrite elem_of_app, list_elem_of_singleton.
        destruct (decide (c = x)) as [-> | Hne].
        -- rewrite lookup_insert_eq. cbn. tauto.
        -- rewrite lookup_insert_ne by congruence. rewrite Hseen. tauto.
      * apply NoDup_app. split; [exact Hnodup |]. split; [| apply NoDup_singleton].
        intros c Hc. rewrite list_elem_of_singleton. congruence.
      * split; [exact Hnd |]. intros c.
        rewrite Hin, elem_of_app, list_elem_of_singleton, elem_of_cons. tauto.
Qed.

Lemma removeDuplicateCharacters_spec password :
  NoDup (removeDuplicateCharacters password)
  /\ (forall c, c ∈ removeDuplicateCharacters password <-> c ∈ password).
Proof.
  destruct (removeDuplicate_loop_spec password ∅ []) as [Hnd Hin].
  - intros c. rewrite lookup_empty, elem_of_nil. cbn. split; [discriminate | tauto].
  - constructor.
  - split; [exact Hnd |]. intros c. unfold removeDuplicateCharacters.
    rewrite Hin, elem_of_nil. tauto.
Qed.

(** Without sequential removal, a password is the filled buffer after
    similar and duplicate removal, as enabled. *)
Lemma generatePassword_without_repair fuel opts src pos pw pos' :
  NoSequential opts = false ->
  generatePassword fuel opts src pos = Done (pw, None) pos' ->
  exists raw,
    pw = (let s := if NoSimilar opts then removeSimilarCharacters raw else raw in
          if NoDuplicates opts then removeDuplicateCharacters s else s).
Proof.
  intros Hseq Hgen.
  apply generatePassword_inv in Hgen as (_ & _ & raw & pos1 & _ & Henf).
  exists raw. unfold enforce in Henf. rewrite Hseq, ret_eq in Henf.
  injection Henf as <- _. reflexivity.
Qed.

(** X23. For every request with [NoSimilar] and without [NoSequential],
    whatever the source delivers, no character of any returned password is
    one of [i I l 1 L o 0 O]. *)
Theorem GeneratePasswords_no_similar
    (opts : PasswordOptions) (fuel : nat) (src : source) (pos : nat)
    (pws : list (list rune)) (err : option error) (pos' : nat) :
  NoSimilar opts = true ->
  NoSequential opts = false ->
  GeneratePasswords fuel opts src pos = Done (pws, err) pos' ->
  Forall no_similar pws.
Proof.
  intros Hsim Hseq Hrun. unfold GeneratePasswords in Hrun.
  eapply (GeneratePasswords_loop_Forall fuel opts src no_similar);
    [| constructor | exact Hrun].
  intros pos0 pw pos1 Hgen.
  destruct (generatePassword_without_repair _ _ _ _ _ _ Hseq Hgen) as (raw & ->).
  rewrite Hsim. cbv zeta.
  destruct (NoDuplicates opts); [| apply removeSimilarCharacters_no_similar].
  apply Forall_forall. intros c Hc.
  apply (proj1 (proj2 (removeDuplicateCharacters_spec _) c)) in Hc.
  pose proof (removeSimilarCharacters_no_similar raw) as Hall.
  unfold no_similar in Hall. rewrite Forall_forall in Hall. apply Hall, Hc.
Qed.

Lemma GeneratePasswords_no_similar_witness :
  Forall no_similar [[97; 98; 99; 106]; [107]].
Proof.
  apply (GeneratePasswords_no_similar
           (request 5 2 false false false true false true false false) 3
           (draws [0; 8; 1; 2; 9; 11; 11; 14; 10; 8]) 0%nat
           [[97; 98; 99; 106]; [107]] None 10%nat).
  - reflexivity.
  - reflexivity.
  - vm_compute. reflexivity.
Defined.

(** C2. With [NoSimilar] and [NoSequential], lowercase only and length 3,
    the draws 0, 1, 2 assemble [abc], which similar removal leaves as it
    is; the repair replaces the run with the characters its draws 34, 49,
    50 select, [i], [x], [y], and the password returned holds the similar
    character [i], which the comment on [similarCharacters] says is
    excluded when [NoSimilar] is enabled. *)
Lemma GeneratePasswords_similar_after_repair :
  NoSimilar (request 3 1 false false false true false true false true) = true
  /\ exists pws pos',
       GeneratePasswords 3 (request 3 1 false false false true false true false true)
         (draws [0; 1; 2; 34; 49; 50]) 0%nat = Done (pws, None) pos'
       /\ ~ Forall no_similar pws.
Proof.
  split; [reflexivity |].
  exists [[105; 120; 121]], 6%nat. split; [vm_compute; reflexivity |].
  intros Hall. apply Forall_cons in Hall as [Hpw _].
  apply Forall_cons in Hpw as [Hi _]. apply Hi. compute_done.
Qed.

(** X24. For every request with [NoDuplicates] and without
    [NoSequential], whatever the source delivers, no character appears
    twice in any returned password. *)
Theorem GeneratePasswords_no_duplicates
    (opts : PasswordOptions) (fuel : nat) (src : source) (pos : nat)
    (pws : list (list rune)) (err : option error) (pos' : nat) :
  NoDuplicates opts = true ->
  NoSequential opts = false ->
  GeneratePasswords fuel opts src pos = Done (pws, err) pos' ->
  Forall NoDup pws.
Proof.
  intros Hdup Hseq Hrun. unfold GeneratePasswords in Hrun.
  eapply (GeneratePasswords_loop_Forall fuel opts src NoDup);
    [| constructor | exact Hrun].
  intros pos0 pw pos1 Hgen.
  destruct (generatePassword_without_repair _ _ _ _ _ _ Hseq Hgen) as (raw & ->).
  rewrite Hdup. cbv zeta. apply removeDuplicateCharacters_spec.
Qed.

Lemma GeneratePasswords_no_duplicates_witness :
  Forall NoDup [[97; 98; 99]; [100; 102]].
Proof.
  apply (GeneratePasswords_no_duplicates
           (request 5 2 false false false true false false true false) 3
           (draws [0; 1; 0; 2; 1; 3; 3; 5; 5; 3]) 0%nat
           [[97; 98; 99]; [100; 102]] None 10%nat).
  - reflexivity.
  - reflexivity.
  - vm_compute. reflexivity.
Defined.

(** C3. With [NoDuplicates] and [NoSequential], lowercase only and length
    3, the draws 0, 1, 2 assemble [abc], which duplicate removal leaves as
    it is; the repair replaces the run with the character its draws 26,
    26, 26 select, and the password returned is [aaa], although
    [removeDuplicateCharacters] is documented to ensure that each character
    appears only once when [NoDuplicates] is enabled. *)
Lemma GeneratePasswords_duplicates_after_repair :
  NoDuplicates (request 3 1 false false false true false false true true) = true
  /\ exists pws pos',
       GeneratePasswords 3 (request 3 1 false false false true false false true true)
         (draws [0; 1; 2; 26; 26; 26]) 0%nat = Done (pws, None) pos'
       /\ ~ Forall NoDup pws.
Proof.
  split; [reflexivity |].
  exists [[97; 97; 97]], 6%nat. split; [vm_compute; reflexivity |].
  intros Hall. apply Forall_cons in Hall as [Hpw _].
  apply NoDup_cons in Hpw as [Hfresh _]. apply Hfresh. left.
Qed.

(** ** Where the repair stage departs from the documented behaviour *)

(** The sampler of the assembly stage turns a failed read into its error. *)
Lemma secureRandomChar_read_failure chars src pos :
  1 < len chars -> src pos = None ->
  secureRandomChar chars src pos = Done (0, Some errSecureRandom) (S pos).
Proof.
  intros Hlen Hk. unfold secureRandomChar.
  rewrite bind_eq, randInt_reads, Hk by exact Hlen. reflexivity.
Qed.

(** C1. With [NoSequential], lowercase only and length 3, the draws 0, 1, 2
    assemble [abc]; the repair replaces the run with the characters its
    next draws 26, 27, 28 select, [a], [b], [c], and the password returned
    is the run [abc] again. With length 4 and the candidate [abce], the
    replacement [a], [c], [d] is accepted although [c], [d] and the right
    neighbour [e] make a new run: the returned [acde] contains it. *)
Theorem GeneratePasswords_sequential_run_survives :
  NoSequential (request 3 1 false false false true false false false true) = true
  /\ GeneratePasswords 3 (request 3 1 false false false true false false false true)
       (draws [0; 1; 2; 26; 27; 28]) 0%nat
     = Done ([runes_of "abc"], None) 6%nat
  /\ hasSequentialRun (runes_of "abc") = true
  /\ GeneratePasswords 3 (request 4 1 false false false true false false false true)
       (draws [0; 1; 2; 4; 26; 28; 29]) 0%nat
     = Done ([runes_of "acde"], None) 7%nat
  /\ hasSequentialRun (runes_of "acde") = true.
Proof. repeat split; vm_compute; reflexivity. Qed.

(** C5. With [NoSequential], lowercase only and length 3, the draws 0, 1, 2
    assemble [abc]; the fourth read, the first of the repair, fails, and
    the call does not return an error: it panics on the nil result of
    [rand.Int]. A failure of one of the first three reads comes back as
    the sampler's error. *)
Theorem GeneratePasswords_repair_read_failure_panics :
  draws [0; 1; 2] 3%nat = None
  /\ GeneratePasswords 3 (request 3 1 false false false true false false false true)
       (draws [0; 1; 2]) 0%nat
     = Panicked NilDereference
  /\ GeneratePasswords 3 (request 3 1 false false false true false false false true)
       (draws [0; 1]) 0%nat
     = Done ([], Some errSecureRandom) 3%nat.
Proof. repeat split; vm_compute; reflexivity. Qed.

(** * Further properties of the package *)

(** ** Sequential triples *)

Lemma wrap32_succ z :
  - 2 ^ 31 <= z < 2 ^ 31 ->
  wrap32 (z + 1) = if z =? 2 ^ 31 - 1 then - 2 ^ 31 else z + 1.
Proof.
  intros Hz. destruct (Z.eqb_spec z (2 ^ 31 - 1)) as [-> | Hne].
  - reflexivity.
  - apply wrap32_small. lia.
Qed.

Lemma wrap32_pred z :
  - 2 ^ 31 <= z < 2 ^ 31 ->
  wrap32 (z - 1) = if z =? - 2 ^ 31 then 2 ^ 31 - 1 else z - 1.
Proof.
  intros Hz. destruct (Z.eqb_spec z (- 2 ^ 31)) as [-> | Hne].
  - reflexivity.
  - apply wrap32_small. lia.
Qed.

Lemma isSequential_true a b c :
  isSequential a b c = true <->
  (b = wrap32 (a + 1) /\ c = wrap32 (b + 1)) \/ (b = wrap32 (a - 1) /\ c = wrap32 (b - 1)).
Proof.
  unfold isSequential. rewrite orb_true_iff, !andb_true_iff, !Z.eqb_eq. reflexivity.
Qed.

(** X1. Away from the two ends of the [int32] range, so for every
    character of a string, [isSequential] holds exactly of the ascending
    triples [a, a+1, a+2] and the descending triples [a, a-1, a-2]. *)
Theorem isSequential_step_one (a b c : rune) :
  - 2 ^ 31 + 2 <= a <= 2 ^ 31 - 3 ->
  (isSequential a b c = true <->
   (b = a + 1 /\ c = a + 2) \/ (b = a - 1 /\ c = a - 2)).
Proof.
  intros Ha. rewrite isSequential_true.
  rewrite (wrap32_small (a + 1)), (wrap32_small (a - 1)) by lia.
  split.
  - intros [[-> ->] | [-> ->]]; (rewrite wrap32_small by lia); [left | right]; lia.
  - intros [[-> ->] | [-> ->]]; (rewrite !wrap32_small by lia); [left | right]; lia.
Qed.

Lemma isSequential_step_one_witness :
  isSequential 97 98 99 = true <->
  (98 = 97 + 1 /\ 99 = 97 + 2) \/ (98 = 97 - 1 /\ 99 = 97 - 2).
Proof. apply (isSequential_step_one 97 98 99). lia. Defined.

(** X2. A triple is sequential exactly when the triple read backwards is:
    an ascending run is a descending run from its other end, also across
    the wrap-around of [int32]. *)
Theorem isSequential_reverse (a b c : rune) :
  - 2 ^ 31 <= a < 2 ^ 31 -> - 2 ^ 31 <= b < 2 ^ 31 -> - 2 ^ 31 <= c < 2 ^ 31 ->
  isSequential a b c = isSequential c b a.
Proof.
  intros Ha Hb Hc. apply eq_iff_eq_true. rewrite !isSequential_true.
  rewrite (wrap32_succ a), (wrap32_succ b), (wrap32_succ c),
    (wrap32_pred a), (wrap32_pred b), (wrap32_pred c) by assumption.
  destruct (Z.eqb_spec a (2 ^ 31 - 1)), (Z.eqb_spec b (2 ^ 31 - 1)),
    (Z.eqb_spec c (2 ^ 31 - 1)), (Z.eqb_spec a (- 2 ^ 31)),
    (Z.eqb_spec b (- 2 ^ 31)), (Z.eqb_spec c (- 2 ^ 31));
    try lia; (split; intros [[? ?] | [? ?]]; lia).
Qed.

Lemma isSequential_reverse_witness :
  isSequential 2147483646 2147483647 (- 2147483648)
  = isSequential (- 2147483648) 2147483647 2147483646.
Proof.
  apply (isSequential_reverse 2147483646 2147483647 (- 2147483648)); lia.
Defined.

(** ** The pool *)

(** X3. Whatever the flags, the pool holds no character twice, and its
    size is the sum of the sizes of the enabled classes: 27 symbols, 10
    digits, 26 uppercase and 26 lowercase letters. *)
Theorem buildCharacterSet_NoDup (opts : PasswordOptions) :
  NoDup (buildCharacterSet opts)
  /\ len (buildCharacterSet opts) =
       (if IncludeSymbols opts then 27 else 0) + (if IncludeNumbers opts then 10 else 0)
       + (if IncludeUpper opts then 26 else 0) + (if IncludeLower opts then 26 else 0).
Proof.
  rewrite buildCharacterSet_eq.
  destruct (IncludeSymbols opts), (IncludeNumbers opts),
    (IncludeUpper opts), (IncludeLower opts);
    (split; [compute_done | reflexivity]).
Qed.

(** ** Similar removal on its own *)

Lemma ReplaceAll_filter s old :
  ReplaceAll s old [] = filter (fun c => c <> old) s.
Proof.
  induction s as [| x s IH]; [reflexivity |].
  cbn [ReplaceAll]. rewrite filter_cons, IH.
  destruct (Z.eqb_spec x old) as [-> | Hne].
  - destruct (decide (old <> old)) as [Hne | _]; [exfalso; apply Hne | ]; reflexivity.
  - destruct (decide (x <> old)); [reflexivity | contradiction].
Qed.

Lemma remove_all_filter (chars : list rune) :
  forall s,
    foldl (fun password char => ReplaceAll password char []) s chars
    = filter (fun c => c ∉ chars) s.
Proof.
  induction chars as [| x chars IH]; intros s; cbn [foldl].
  - induction s as [| y s IHs]; [reflexivity |].
    rewrite filter_cons_True by apply not_elem_of_nil. congruence.
  - rewrite IH, ReplaceAll_filter, list_filter_filter.
    apply list_filter_iff. intros c. rewrite not_elem_of_cons. tauto.
Qed.

(** X4. Similar removal is a filter: it returns the characters of the
    password that are not among [i I l 1 L o 0 O], in their order and with
    their repetitions. *)
Theorem removeSimilarCharacters_filter (password : list rune) :
  removeSimilarCharacters password = filter (fun c => c ∉ similarCharacters) password.
Proof. apply remove_all_filter. Qed.

(** X5. Similar removal never lengthens a password, and it returns the
    password as it is exactly when the password holds no similar
    character; so removing twice is removing once. *)
Theorem removeSimilarCharacters_fixed (password : list rune) :
  (length (removeSimilarCharacters password) <= length password)%nat
  /\ (removeSimilarCharacters password = password <-> no_similar password)
  /\ removeSimilarCharacters (removeSimilarCharacters password)
     = removeSimilarCharacters password.
Proof.
  assert (Hfix : forall s, no_similar s -> removeSimilarCharacters s = s).
  { intros s Hs. unfold removeSimilarCharacters. rewrite remove_all_filter.
    induction Hs as [| x s Hx _ IH]; [reflexivity |].
    rewrite filter_cons_True by exact Hx. congruence. }
  split; [| split].
  - unfold removeSimilarCharacters. rewrite remove_all_filter. apply length_filter.
  - split; [| apply Hfix].
    intros Heq. rewrite <- Heq. apply removeSimilarCharacters_no_similar.
  - apply Hfix, removeSimilarCharacters_no_similar.
Qed.

(** ** Duplicate removal on its own *)

Lemma seen_marks_insert (seen : gmap Z bool) (result : list rune) x :
  (forall c, default false (seen !! c) = true <-> c ∈ result) ->
  forall c, default false (<[x := true]> seen !! c) = true <-> c ∈ result ++ [x].
Proof.
  intros Hseen c. rewrite elem_of_app, list_elem_of_singleton.
  destruct (decide (c = x)) as [-> | Hne].
  - rewrite lookup_insert_eq. cbn. tauto.
  - rewrite lookup_insert_ne by congruence. rewrite Hseen. tauto.
Qed.

Lemma removeDuplicate_loop_sublist rest :
  forall (seen : gmap Z bool) (result : list rune),
    exists kept,
      removeDuplicate_loop rest seen result = result ++ kept
      /\ kept `sublist_of` rest.
Proof.
  induction rest as [| x rest IH]; intros seen result; cbn [removeDuplicate_loop].
  - exists []. split; [symmetry; apply app_nil_r | constructor].
  - destruct (negb (default false (seen !! x))).
    + destruct (IH (<[x := true]> seen) (result ++ [x])) as (kept & -> & Hsub).
      exists (x :: kept). split; [rewrite <- app_assoc; reflexivity |].
      apply sublist_skip, Hsub.
    + destruct (IH seen result) as (kept & -> & Hsub).
      exists kept. split; [reflexivity | apply sublist_cons, Hsub].
Qed.

Lemma removeDuplicate_loop_snoc x rest :
  forall (seen : gmap Z bool) (result : list rune),
    (forall c, default false (seen !! c) = true <-> c ∈ result) ->
    removeDuplicate_loop (rest ++ [x]) seen result =
      if decide (x ∈ removeDuplicate_loop rest seen result)
      then removeDuplicate_loop rest seen result
      else removeDuplicate_loop rest seen result ++ [x].
Proof.
  induction rest as [| y rest IH]; intros seen result Hseen;
    cbn [app removeDuplicate_loop].
  - destruct (default false (seen !! x)) eqn:Hx; cbn [negb].
    + apply Hseen in Hx. destruct (decide (x ∈ result)); [reflexivity | contradiction].
    + destruct (decide (x ∈ result)) as [Hin | _]; [| reflexivity].
      apply Hseen in Hin. congruence.
  - destruct (negb (default false (seen !! y))).
    + apply IH, seen_marks_insert, Hseen.
    + apply IH, Hseen.
Qed.

Lemma seen_marks_empty :
  forall c, default false ((∅ : gmap Z bool) !! c) = true <-> c ∈ @nil Z.
Proof.
  intros c. rewrite lookup_empty, elem_of_nil. cbn. split; [discriminate | tauto].
Qed.

(** X6. Duplicate removal returns a string without repeats that holds
    exactly the characters of the password and is a subsequence of it:
    nothing is added, nothing reordered. *)
Theorem removeDuplicateCharacters_subsequence (password : list rune) :
  NoDup (removeDuplicateCharacters password)
  /\ (forall c, c ∈ removeDuplicateCharacters password <-> c ∈ password)
  /\ removeDuplicateCharacters password `sublist_of` password.
Proof.
  destruct (removeDuplicateCharacters_spec password) as [Hnd Hin].
  split; [exact Hnd |]. split; [exact Hin |].
  unfold removeDuplicateCharacters.
  destruct (removeDuplicate_loop_sublist password ∅ []) as (kept & -> & Hsub).
  exact Hsub.
Qed.

(** X7. Duplicate removal keeps first occurrences: a character appended
    to a password is appended to the result if the password does not hold
    it yet, and dropped otherwise. *)
Theorem removeDuplicateCharacters_snoc (password : list rune) (x : rune) :
  removeDuplicateCharacters (password ++ [x]) =
    if decide (x ∈ password)
    then removeDuplicateCharacters password
    else removeDuplicateCharacters password ++ [x].
Proof.
  unfold removeDuplicateCharacters.
  rewrite removeDuplicate_loop_snoc by apply seen_marks_empty.
  pose proof (proj2 (removeDuplicateCharacters_spec password) x) as Hin.
  unfold removeDuplicateCharacters in Hin.
  destruct (decide (x ∈ removeDuplicate_loop password ∅ [])) as [Hyes | Hno],
    (decide (x ∈ password)) as [Hyes' | Hno']; tauto || reflexivity.
Qed.

(** X8. Duplicate removal returns the password as it is exactly when the
    password has no repeats. *)
Theorem removeDuplicateCharacters_fixed (password : list rune) :
  removeDuplicateCharacters password = password <-> NoDup password.
Proof.
  split.
  - intros Heq. rewrite <- Heq. apply removeDuplicateCharacters_spec.
  - induction password as [| x password IH] using rev_ind; [reflexivity |].
    intros Hnd. apply NoDup_app in Hnd as (Hl & Hx & _).
    unfold removeDuplicateCharacters in *.
    rewrite removeDuplicate_loop_snoc by apply seen_marks_empty.
    rewrite IH by exact Hl.
    destruct (decide (x ∈ password)) as [Hin | _]; [| reflexivity].
    exfalso. apply (Hx x Hin). left.
Qed.

(** ** Sequential removal on its own *)

Lemma hasSequentialRun_tail x (runes : list rune) :
  hasSequentialRun (x :: runes) = false -> hasSequentialRun runes = false.
Proof.
  destruct runes as [| b [| c rest]]; try reflexivity.
  cbn [hasSequentialRun]. intros H. apply orb_false_elim in H as [_ H]. exact H.
Qed.

Lemma removeSequential_loop_run_free fuel runes src pos :
  forall steps i result,
    0 <= i <= len runes ->
    len runes - i <= Z.of_nat steps ->
    hasSequentialRun (drop (Z.to_nat i) runes) = false ->
    removeSequential_loop steps fuel runes i result src pos
    = Done (result ++ drop (Z.to_nat i) runes) pos.
Proof.
  induction steps as [| steps IH]; intros i result Hi Hsteps Hfree.
  - cbn [removeSequential_loop].
    destruct (Z.ltb_spec i (len runes)); [lia |].
    rewrite drop_ge by (unfold len in *; lia). rewrite app_nil_r. reflexivity.
  - cbn [removeSequential_loop].
    destruct (Z.ltb_spec i (len runes)) as [Hlt | Hge].
    2: { rewrite drop_ge by (unfold len in *; lia). rewrite app_nil_r. reflexivity. }
    destruct (index_at_in_range runes i) as (c0 & Hl0 & Hc0); [lia |].
    rewrite (drop_S _ _ _ Hl0) in Hfree |- *.
    assert (Hnext : Z.to_nat (i + 1) = S (Z.to_nat i)) by lia.
    assert (Hrest : removeSequential_loop steps fuel runes (i + 1) (result ++ [c0]) src pos
                    = Done (result ++ c0 :: drop (S (Z.to_nat i)) runes) pos).
    { rewrite IH; [| lia | lia |].
      - rewrite Hnext, <- app_assoc. reflexivity.
      - rewrite Hnext. eapply hasSequentialRun_tail, Hfree. }
    destruct (Z.ltb_spec (i + 2) (len runes)) as [Hrun | Hend].
    + destruct (index_at_in_range runes (i + 1)) as (b & Hl1 & Hb); [lia |].
      destruct (index_at_in_range runes (i + 2)) as (c & Hl2 & Hc); [lia |].
      rewrite Hnext in Hl1.
      replace (Z.to_nat (i + 2)) with (S (S (Z.to_nat i))) in Hl2 by lia.
      rewrite (drop_S _ _ _ Hl1), (drop_S _ _ _ Hl2) in Hfree.
      cbn [hasSequentialRun] in Hfree. apply orb_false_elim in Hfree as [Hno _].
      rewrite Hc0, Hb, Hc. go_ret. rewrite Hno. go_ret. exact Hrest.
    + rewrite Hc0. go_ret. exact Hrest.
Qed.

(** X9. A string in which no three consecutive characters are sequential
    passes through sequential removal unchanged, and the source is not
    read: this holds for every source, also one that would fail. *)
Theorem removeSequentialCharacters_run_free
    (fuel : nat) (password : list rune) (src : source) (pos : nat) :
  hasSequentialRun password = false ->
  removeSequentialCharacters fuel password src pos = Done password pos.
Proof.
  intros Hfree. unfold removeSequentialCharacters.
  rewrite (removeSequential_loop_run_free fuel password src pos (length password) 0 []).
  - reflexivity.
  - unfold len. lia.
  - unfold len. lia.
  - exact Hfree.
Qed.

Lemma removeSequentialCharacters_run_free_witness :
  removeSequentialCharacters 0 (runes_of "acegikxz") (draws []) 0%nat
  = Done (runes_of "acegikxz") 0%nat.
Proof.
  apply (removeSequentialCharacters_run_free 0 (runes_of "acegikxz") (draws []) 0%nat).
  reflexivity.
Defined.

Lemma getRandomRune_Done src pos c pos' :
  getRandomRune src pos = Done c pos' -> c ∈ charSets.
Proof.
  destruct (src pos) as [k |] eqn:Hk.
  - destruct (getRandomRune_value src pos k Hk) as (c1 & -> & Hc1).
    intros [= <- _]. eapply list_elem_of_lookup_2, Hc1.
  - rewrite getRandomRune_failure by exact Hk. discriminate.
Qed.

Lemma generateNonSequential_loop_Done runes index fuel :
  forall acc src pos r pos',
    Forall (fun c => c ∈ charSets) acc ->
    generateNonSequential_loop fuel runes index acc src pos = Done r pos' ->
    Forall (fun c => c ∈ charSets) r.
Proof.
  induction fuel as [| fuel IH]; intros acc src pos r pos' Hacc;
    cbn [generateNonSequential_loop]; destruct (len acc <? 3);
    try discriminate; try (intros [= <- _]; exact Hacc).
  intros Hrun.
  apply bind_Done_inv in Hrun as (c & p1 & Hdraw & Hrun).
  apply bind_Done_inv in Hrun as (left & p2 & _ & Hrun).
  apply bind_Done_inv in Hrun as (skip & p3 & _ & Hrun).
  destruct skip; [eapply IH, Hrun; exact Hacc |].
  eapply IH, Hrun. apply Forall_app. split; [exact Hacc |].
  apply Forall_singleton. eapply getRandomRune_Done, Hdraw.
Qed.

Lemma index_at_Done (s : list rune) i src pos c pos' :
  index_at s i src pos = Done c pos' -> c ∈ s.
Proof.
  unfold index_at. destruct (0 <=? i); [| discriminate].
  destruct (s !! Z.to_nat i) as [c1 |] eqn:Hc1; [| discriminate].
  intros [= <- _]. eapply list_elem_of_lookup_2, Hc1.
Qed.

Lemma removeSequential_loop_Done fuel runes steps :
  forall i result src pos s pos',
    Forall (fun c => c ∈ runes \/ c ∈ charSets) result ->
    removeSequential_loop steps fuel runes i result src pos = Done s pos' ->
    Forall (fun c => c ∈ runes \/ c ∈ charSets) s.
Proof.
  induction steps as [| steps IH]; intros i result src pos s pos' Hres;
    cbn [removeSequential_loop]; destruct (i <? len runes);
    try discriminate; try (intros [= <- _]; exact Hres).
  intros Hrun.
  apply bind_Done_inv in Hrun as (found & p1 & _ & Hrun).
  destruct found.
  - apply bind_Done_inv in Hrun as (replacement & p2 & Hrep & Hrun).
    eapply IH, Hrun. apply Forall_app. split; [exact Hres |].
    eapply Forall_impl;
      [eapply (generateNonSequential_loop_Done runes i fuel []), Hrep; constructor |].
    intros c Hc. right. exact Hc.
  - apply bind_Done_inv in Hrun as (c & p2 & Hc & Hrun).
    eapply IH, Hrun. apply Forall_app. split; [exact Hres |].
    apply Forall_singleton. left. eapply index_at_Done, Hc.
Qed.

(** A failed read among the three of a replacement: the loop panics. *)
Lemma generateNonSequentialChars_read_failure fuel runes index src pos m :
  0 <= index <= len runes ->
  (3 <= fuel)%nat ->
  (pos <= m < pos + 3)%nat -> src m = None ->
  generateNonSequentialChars fuel runes index src pos = Panicked NilDereference.
Proof.
  intros Hindex Hfuel Hm Hfail.
  unfold generateNonSequentialChars.
  destruct fuel as [| [| [| fuel]]]; try lia.
  destruct (src pos) as [k1 |] eqn:H1;
    [| apply generateNonSequential_loop_failure; [reflexivity | exact H1]].
  destruct (generateNonSequential_loop_step (S (S fuel)) runes index [] src pos k1)
    as (a & _ & ->); [exact Hindex | reflexivity | exact H1 |].
  cbn [app].
  destruct (src (S pos)) as [k2 |] eqn:H2;
    [| apply generateNonSequential_loop_failure; [reflexivity | exact H2]].
  destruct (generateNonSequential_loop_step (S fuel) runes index [a] src (S pos) k2)
    as (b & _ & ->); [exact Hindex | reflexivity | exact H2 |].
  cbn [app].
  destruct (src (S (S pos))) as [k3 |] eqn:H3;
    [| apply generateNonSequential_loop_failure; [reflexivity | exact H3]].
  exfalso.
  assert (Hcases : m = pos \/ m = S pos \/ m = S (S pos)) by lia.
  destruct Hcases as [-> | [-> | ->]]; congruence.
Qed.

Lemma replacedRuns_short (runes : list rune) :
  (length runes < 3)%nat -> replacedRuns runes = O.
Proof.
  destruct runes as [| a [| b [| c rest]]]; cbn [length]; try reflexivity. lia.
Qed.

(** The scan from index [i] on makes three reads for each run it replaces
    in the rest of the string: it returns after them if they all deliver,
    and panics if one of them fails. *)
Lemma removeSequential_loop_exact fuel runes src :
  (3 <= fuel)%nat ->
  forall steps i result pos,
    0 <= i <= len runes ->
    len runes - i <= Z.of_nat steps ->
    ((forall m, (pos <= m < pos + 3 * replacedRuns (drop (Z.to_nat i) runes))%nat ->
                is_Some (src m)) ->
     exists s,
       removeSequential_loop steps fuel runes i result src pos
       = Done s (pos + 3 * replacedRuns (drop (Z.to_nat i) runes))%nat)
    /\ (forall m, (pos <= m < pos + 3 * replacedRuns (drop (Z.to_nat i) runes))%nat ->
                  src m = None ->
                  removeSequential_loop steps fuel runes i result src pos
                  = Panicked NilDereference).
Proof.
  intros Hfuel.
  assert (Hend : forall steps i result pos,
            len runes <= i ->
            ((forall m, (pos <= m < pos + 3 * replacedRuns (drop (Z.to_nat i) runes))%nat ->
                        is_Some (src m)) ->
             exists s,
               removeSequential_loop steps fuel runes i result src pos
               = Done s (pos + 3 * replacedRuns (drop (Z.to_nat i) runes))%nat)
            /\ (forall m, (pos <= m < pos + 3 * replacedRuns (drop (Z.to_nat i) runes))%nat ->
                          src m = None ->
                          removeSequential_loop steps fuel runes i result src pos
                          = Panicked NilDereference)).
  { intros steps i result pos Hge.
    rewrite drop_ge by (unfold len in *; lia). cbn [replacedRuns].
    split; [| intros m Hm; lia].
    intros _. exists result. replace (pos + 3 * 0)%nat with pos by lia.
    destruct steps; cbn [removeSequential_loop];
      destruct (Z.ltb_spec i (len runes)); try lia; reflexivity. }
  induction steps as [| steps IH]; intros i result pos Hi Hsteps.
  - apply Hend. lia.
  - destruct (Z.ltb_spec i (len runes)) as [Hlt | Hge]; [| apply Hend, Hge].
    cbn [removeSequential_loop].
    destruct (Z.ltb_spec i (len runes)) as [_ | ?]; [| lia].
    destruct (index_at_in_range runes i) as (c0 & Hl0 & Hc0); [lia |].
    assert (Hnext : Z.to_nat (i + 1) = S (Z.to_nat i)) by lia.
    rewrite (drop_S _ _ _ Hl0).
    destruct (Z.ltb_spec (i + 2) (len runes)) as [Hrun | Hshort].
    + destruct (index_at_in_range runes (i + 1)) as (b & Hl1 & Hb); [lia |].
      destruct (index_at_in_range runes (i + 2)) as (c & Hl2 & Hc); [lia |].
      rewrite Hnext in Hl1.
      replace (Z.to_nat (i + 2)) with (S (S (Z.to_nat i))) in Hl2 by lia.
      rewrite (drop_S _ _ _ Hl1), (drop_S _ _ _ Hl2).
      cbn [replacedRuns].
      rewrite Hc0, Hb, Hc. go_ret.
      destruct (isSequential c0 b c).
      * specialize (IH (i + 2 + 1)).
        replace (Z.to_nat (i + 2 + 1)) with (S (S (S (Z.to_nat i)))) in IH by lia.
        set (r := replacedRuns (drop (S (S (S (Z.to_nat i)))) runes)) in *.
        split.
        -- intros Hall.
           destruct (Hall pos) as [k1 H1]; [lia |].
           destruct (Hall (S pos)) as [k2 H2]; [lia |].
           destruct (Hall (S (S pos))) as [k3 H3]; [lia |].
           destruct (generateNonSequentialChars_three fuel runes i src pos k1 k2 k3)
             as (x & y & z & _ & _ & _ & Hrep); try assumption; try lia.
           rewrite bind_eq, Hrep.
           destruct (IH (result ++ [x; y; z]) (S (S (S pos)))) as [Hok _]; [lia | lia |].
           destruct Hok as (s & Hs); [intros m Hm; apply Hall; lia |].
           exists s. rewrite Hs. f_equal. lia.
        -- intros m Hm Hfail. rewrite bind_eq.
           destruct (src pos) as [k1 |] eqn:H1;
             [| rewrite (generateNonSequentialChars_read_failure fuel runes i src pos pos);
                [reflexivity | lia | exact Hfuel | lia | exact H1]].
           destruct (src (S pos)) as [k2 |] eqn:H2;
             [| rewrite (generateNonSequentialChars_read_failure fuel runes i src pos (S pos));
                [reflexivity | lia | exact Hfuel | lia | exact H2]].
           destruct (src (S (S pos))) as [k3 |] eqn:H3;
             [| rewrite (generateNonSequentialChars_read_failure fuel runes i src pos
                           (S (S pos)));
                [reflexivity | lia | exact Hfuel | lia | exact H3]].
           destruct (generateNonSequentialChars_three fuel runes i src pos k1 k2 k3)
             as (x & y & z & _ & _ & _ & Hrep); try assumption; try lia.
           rewrite Hrep.
           destruct (IH (result ++ [x; y; z]) (S (S (S pos)))) as [_ Hbad]; [lia | lia |].
           apply (Hbad m); [| exact Hfail].
           assert (m <> pos /\ m <> S pos /\ m <> S (S pos)) by (repeat split; congruence).
           lia.
      * go_ret. specialize (IH (i + 1) (result ++ [c0]) pos).
        rewrite Hnext, (drop_S _ _ _ Hl1), (drop_S _ _ _ Hl2) in IH.
        apply IH; lia.
    + rewrite Hc0. go_ret. specialize (IH (i + 1) (result ++ [c0]) pos).
      rewrite Hnext in IH.
      assert (Hrest : (length (drop (S (Z.to_nat i)) runes) < 2)%nat).
      { rewrite length_drop. unfold len in *. lia. }
      rewrite (replacedRuns_short (c0 :: _)) by (cbn [length]; lia).
      rewrite replacedRuns_short in IH by lia.
      apply IH; lia.
Qed.

(** X10. With [r] the number of runs its scan replaces in the input,
    sequential removal, given room for the three iterations of each
    replacement, makes exactly [3 r] reads of the source. If all of them
    deliver, it returns after them a string as long as its input, every
    character of which is a character of the input or one of the
    alphanumeric characters of [getRandomRune]. If one of them fails, it
    panics on a nil dereference. So it panics exactly when a read it makes
    fails, and it returns no error. *)
Theorem removeSequentialCharacters_outcomes
    (fuel : nat) (password : list rune) (src : source) (pos : nat) :
  (3 <= fuel)%nat ->
  ((forall m, (pos <= m < pos + 3 * replacedRuns password)%nat -> is_Some (src m)) ->
   exists s,
     removeSequentialCharacters fuel password src pos
     = Done s (pos + 3 * replacedRuns password)%nat
     /\ length s = length password
     /\ Forall (fun c => c ∈ password \/ c ∈ charSets) s)
  /\ (forall m, (pos <= m < pos + 3 * replacedRuns password)%nat ->
                src m = None ->
                removeSequentialCharacters fuel password src pos = Panicked NilDereference).
Proof.
  intros Hfuel.
  destruct (removeSequential_loop_exact fuel password src Hfuel
              (length password) 0 [] pos) as [Hok Hbad];
    [unfold len; lia | unfold len; lia |].
  change (drop (Z.to_nat 0) password) with password in *.
  split; [| exact Hbad].
  intros Hall. destruct (Hok Hall) as (s & Hrun).
  exists s. split; [exact Hrun |].
  destruct (removeSequentialCharacters_outcome fuel password src pos Hfuel)
    as [(s' & pos' & Hrun' & Hlen) | [Hpanic _]];
    unfold removeSequentialCharacters in *; rewrite Hrun in *; [| discriminate].
  injection Hrun' as <- _. split; [exact Hlen |].
  eapply removeSequential_loop_Done, Hrun. constructor.
Qed.

Lemma removeSequentialCharacters_outcomes_witness :
  removeSequentialCharacters 3 (runes_of "xabcy") (draws [7; 30]) 0%nat
  = Panicked NilDereference.
Proof.
  apply (proj2 (removeSequentialCharacters_outcomes 3 (runes_of "xabcy")
                  (draws [7; 30]) 0%nat (le_n 3)) 2%nat).
  - vm_compute. lia.
  - reflexivity.
Defined.

(** ** What a generation reads and returns *)

Lemma pool_len opts :
  buildCharacterSet opts <> [] -> 1 < len (buildCharacterSet opts).
Proof.
  rewrite buildCharacterSet_eq.
  destruct (IncludeSymbols opts), (IncludeNumbers opts),
    (IncludeUpper opts), (IncludeLower opts); intros H; try reflexivity.
  contradiction H. reflexivity.
Qed.

Lemma letters_len opts : letters opts <> [] -> 1 < len (letters opts).
Proof.
  unfold letters.
  destruct (IncludeUpper opts), (IncludeLower opts); intros H; try reflexivity.
  contradiction H. reflexivity.
Qed.

(** A return of the sampler on a pool of two characters or more: one read
    was made, and it delivered a character of the pool or failed. *)
Lemma secureRandomChar_Done chars src pos c err pos' :
  1 < len chars ->
  secureRandomChar chars src pos = Done (c, err) pos' ->
  pos' = S pos
  /\ match err with
     | None => c ∈ chars
     | Some e => e = errSecureRandom /\ src pos = None
     end.
Proof.
  intros Hlen. unfold secureRandomChar.
  rewrite bind_eq, randInt_reads by exact Hlen.
  destruct (src pos) as [k |] eqn:Hk.
  - destruct (index_at_in_range chars (k mod len chars)) as (c1 & Hc1 & Hat);
      [apply Z.mod_pos_bound; lia |].
    cbn [Int64]. go_ret. rewrite Hat. go_ret. rewrite ret_eq.
    intros [= <- <- <-]. split; [reflexivity |].
    eapply list_elem_of_lookup_2, Hc1.
  - rewrite ret_eq. intros [= <- <- <-]. auto.
Qed.

Lemma draw_at_Done opts i src pos c err pos' :
  buildCharacterSet opts <> [] ->
  draw_at opts (buildCharacterSet opts) i src pos = Done (c, err) pos' ->
  pos' = S pos
  /\ match err with
     | None => c ∈ buildCharacterSet opts
               /\ (i = 0 -> BeginWithLetter opts = true -> c ∈ letters opts)
     | Some e => e = errSecureRandom /\ src pos = None
     end.
Proof.
  intros Hpool. unfold draw_at. rewrite getRandomLetter_eq.
  destruct ((i =? 0) && BeginWithLetter opts) eqn:Hfirst.
  - destruct (decide (letters opts = [])) as [Hnil | Hletters];
      [rewrite Hnil, secureRandomChar_nil; discriminate |].
    intros Hrun.
    apply secureRandomChar_Done in Hrun as [-> Hres]; [| apply letters_len, Hletters].
    split; [reflexivity |]. destruct err; [exact Hres |].
    split; [apply letters_in_pool, Hres | intros _ _; exact Hres].
  - intros Hrun.
    apply secureRandomChar_Done in Hrun as [-> Hres]; [| apply pool_len, Hpool].
    split; [reflexivity |]. destruct err; [exact Hres |].
    split; [exact Hres |]. intros -> Hb. rewrite Hb in Hfirst. discriminate.
Qed.

(** A return of the filling loop: without error, it made one read for each
    iteration, the buffer has kept its length, the cells from [i] on hold
    characters of the pool, the first of them a letter where one is asked
    for, and the cells before [i] are as they were. *)
Lemma fill_loop_Done opts :
  buildCharacterSet opts <> [] ->
  forall steps i password src pos pw err pos',
    0 <= i -> i + Z.of_nat steps = len password ->
    fill_loop steps opts (buildCharacterSet opts) i password src pos = Done (pw, err) pos' ->
    match err with
    | None =>
        pos' = (pos + steps)%nat
        /\ len pw = len password
        /\ (forall j c, (Z.to_nat i <= j)%nat -> pw !! j = Some c ->
             c ∈ buildCharacterSet opts
             /\ (j = 0%nat -> BeginWithLetter opts = true -> c ∈ letters opts))
        /\ (forall j, (j < Z.to_nat i)%nat -> pw !! j = password !! j)
    | Some e =>
        pw = [] /\ e = errSecureRandom /\ exists n, src n = None
    end.
Proof.
  intros Hpool.
  induction steps as [| steps IH]; intros i password src pos pw err pos' Hi Hlen.
  - cbn [fill_loop]. rewrite ret_eq. intros [= <- <- <-].
    split; [lia |]. split; [reflexivity |]. split; [| reflexivity].
    intros j c Hj Hc. apply lookup_lt_Some in Hc. unfold len in Hlen. lia.
  - rewrite fill_loop_S. intros Hrun.
    apply bind_Done_inv in Hrun as ([c [e |]] & pos1 & Hdraw & Hrun);
      apply draw_at_Done in Hdraw as [-> Hres]; try exact Hpool.
    + rewrite ret_eq in Hrun. injection Hrun as <- <- <-.
      destruct Hres as [-> Hfail]. eauto.
    + assert (Hin : (Z.to_nat i < length password)%nat) by (unfold len in Hlen; lia).
      apply IH in Hrun; [| lia | unfold len in *; rewrite length_insert; lia].
      destruct err as [e |]; [exact Hrun |].
      destruct Hrun as (-> & Hl & Hfrom & Hbefore).
      split; [lia |].
      split; [unfold len in *; rewrite length_insert in Hl; exact Hl |].
      split.
      * intros j c0 Hj Hc0.
        destruct (decide (j = Z.to_nat i)) as [-> | Hne].
        -- rewrite Hbefore, list_lookup_insert_eq in Hc0 by lia.
           injection Hc0 as <-. destruct Hres as [Hc Hletter].
           split; [exact Hc |]. intros Hzero. apply Hletter. lia.
        -- destruct (Hfrom j c0) as [Hc Hletter]; [lia | exact Hc0 |].
           split; [exact Hc |]. intros ->. lia.
      * intros j Hj. rewrite Hbefore by lia.
        apply list_lookup_insert_ne. lia.
Qed.

(** A password returned by [generatePassword] is what the post-processing
    makes of a buffer of [Length] characters of the pool, filled with that
    many reads, the first character a letter where one is asked for. *)
Lemma generatePassword_Done fuel opts src pos pw pos' :
  generatePassword fuel opts src pos = Done (pw, None) pos' ->
  exists raw,
    len raw = Length opts
    /\ Forall (fun c => c ∈ buildCharacterSet opts) raw
    /\ (BeginWithLetter opts = true -> forall c, head raw = Some c -> c ∈ letters opts)
    /\ enforce fuel opts raw src (pos + Z.to_nat (Length opts))%nat = Done pw pos'.
Proof.
  intros Hgen.
  apply generatePassword_inv in Hgen as (Hpool & Hlen & raw & pos1 & Hfill & Henf).
  apply (fill_loop_Done opts Hpool) in Hfill as (-> & Hl & Hfrom & _);
    [| lia | unfold len; rewrite length_replicate; lia].
  exists raw. split; [| split; [| split]].
  - rewrite Hl. unfold len. rewrite length_replicate. lia.
  - apply Forall_lookup. intros j c Hc. apply (Hfrom j c); [lia | exact Hc].
  - intros Hletter c Hc. rewrite head_lookup in Hc.
    apply (Hfrom 0%nat c); [lia | exact Hc | reflexivity | exact Hletter].
  - exact Henf.
Qed.

(** What the post-processing returns: the string it hands to sequential
    removal, or returns when that is off, is a subsequence of the buffer,
    the buffer itself when neither similar nor duplicate removal is on. *)
Lemma enforce_Done fuel opts raw src pos pw pos' :
  enforce fuel opts raw src pos = Done pw pos' ->
  exists s,
    s `sublist_of` raw
    /\ (NoSimilar opts = false -> NoDuplicates opts = false -> s = raw)
    /\ (NoSimilar opts = false -> forall c, head raw = Some c -> head s = Some c)
    /\ (if NoSequential opts
        then removeSequentialCharacters fuel s src pos = Done pw pos'
        else pw = s /\ pos' = pos).
Proof.
  unfold enforce. intros Hrun.
  assert (Hdup : forall l : list rune,
            removeDuplicateCharacters l `sublist_of` l
            /\ forall c, head l = Some c -> head (removeDuplicateCharacters l) = Some c).
  { intros l. unfold removeDuplicateCharacters. split.
    - destruct (removeDuplicate_loop_sublist l ∅ []) as (kept & -> & Hsub). exact Hsub.
    - destruct l as [| x l]; [discriminate |]. intros c [= <-].
      cbn [removeDuplicate_loop]. rewrite lookup_empty. cbn [default negb app].
      destruct (removeDuplicate_loop_sublist l (<[x := true]> ∅) [x]) as (kept & -> & _).
      reflexivity. }
  assert (Hsim : removeSimilarCharacters raw `sublist_of` raw).
  { unfold removeSimilarCharacters. rewrite remove_all_filter. apply sublist_filter. }
  match type of Hrun with
  | (if _ then _ else mret ?s) _ _ = _ => exists s
  end.
  split; [| split; [| split]].
  - destruct (NoSimilar opts), (NoDuplicates opts); try reflexivity; try exact Hsim;
      try apply Hdup.
    etrans; [apply Hdup | exact Hsim].
  - intros -> ->. reflexivity.
  - intros -> c Hc. destruct (NoDuplicates opts); [apply Hdup, Hc | exact Hc].
  - destruct (NoSequential opts); [exact Hrun |].
    rewrite ret_eq in Hrun. injection Hrun as <- <-. auto.
Qed.

Lemma elem_of_letters opts c :
  c ∈ letters opts <->
  (IncludeUpper opts = true /\ c ∈ upperChars) \/ (IncludeLower opts = true /\ c ∈ lowerChars).
Proof.
  unfold letters. rewrite elem_of_app.
  destruct (IncludeUpper opts), (IncludeLower opts);
    rewrite ?elem_of_nil; intuition congruence.
Qed.

(** X11. For every request that asks for a leading letter and has neither
    [NoSimilar] nor [NoSequential], with a positive [Length], every
    returned password begins with a letter of an enabled letter class,
    whatever the source delivers; [NoDuplicates] does not disturb this. *)
Theorem GeneratePasswords_begin_with_letter
    (opts : PasswordOptions) (fuel : nat) (src : source) (pos : nat)
    (pws : list (list rune)) (err : option error) (pos' : nat) :
  BeginWithLetter opts = true ->
  NoSimilar opts = false -> NoSequential opts = false ->
  0 < Length opts ->
  GeneratePasswords fuel opts src pos = Done (pws, err) pos' ->
  Forall (fun pw => exists c,
            head pw = Some c
            /\ ((IncludeUpper opts = true /\ c ∈ upperChars)
                \/ (IncludeLower opts = true /\ c ∈ lowerChars))) pws.
Proof.
  intros Hletter Hsim Hseq Hlen Hrun. unfold GeneratePasswords in Hrun.
  eapply (GeneratePasswords_loop_Forall fuel opts src); [| constructor | exact Hrun].
  intros pos0 pw pos1 Hgen.
  apply generatePassword_Done in Hgen as (raw & Hl & _ & Hhead & Henf).
  apply enforce_Done in Henf as (s & _ & _ & Hkeep & Hout).
  rewrite Hseq in Hout. destruct Hout as [-> _].
  destruct raw as [| c raw]; [unfold len in Hl; cbn in Hl; lia |].
  exists c. split; [apply (Hkeep Hsim), eq_refl |].
  apply elem_of_letters, (Hhead Hletter), eq_refl.
Qed.

Lemma GeneratePasswords_begin_with_letter_witness :
  Forall (fun pw => exists c,
            head pw = Some c
            /\ ((IncludeUpper (request 4 2 true true true false true false true false) = true
                 /\ c ∈ upperChars)
                \/ (IncludeLower (request 4 2 true true true false true false true false) = true
                    /\ c ∈ lowerChars)))
    [[67; 33; 48]; [90; 57; 65; 66]].
Proof.
  apply (GeneratePasswords_begin_with_letter
           (request 4 2 true true true false true false true false) 3
           (draws [2; 0; 27; 0; 25; 36; 37; 38]) 0%nat
           [[67; 33; 48]; [90; 57; 65; 66]] None 8%nat).
  - reflexivity.
  - reflexivity.
  - reflexivity.
  - reflexivity.
  - vm_compute. reflexivity.
Defined.

(** X12. Whatever the flags and the source, a returned password is never
    longer than [Length], and with neither [NoSimilar] nor [NoDuplicates]
    it has exactly [Length] characters, also after sequential repair. *)
Theorem GeneratePasswords_length_bound
    (opts : PasswordOptions) (fuel : nat) (src : source) (pos : nat)
    (pws : list (list rune)) (err : option error) (pos' : nat) :
  (3 <= fuel)%nat ->
  GeneratePasswords fuel opts src pos = Done (pws, err) pos' ->
  Forall (fun pw => len pw <= Length opts
                    /\ (NoSimilar opts = false -> NoDuplicates opts = false ->
                        len pw = Length opts)) pws.
Proof.
  intros Hfuel Hrun. unfold GeneratePasswords in Hrun.
  eapply (GeneratePasswords_loop_Forall fuel opts src); [| constructor | exact Hrun].
  intros pos0 pw pos1 Hgen.
  apply generatePassword_Done in Hgen as (raw & Hl & _ & _ & Henf).
  apply enforce_Done in Henf as (s & Hsub & Hsame & _ & Hout).
  assert (Hpw : length pw = length s).
  { destruct (NoSequential opts); [| destruct Hout as [-> _]; reflexivity].
    destruct (removeSequentialCharacters_outcome fuel s src
                (pos0 + Z.to_nat (Length opts)) Hfuel)
      as [(s' & p & Hrep & Hlen) | [Hpanic _]]; rewrite Hout in *; [| discriminate].
    injection Hrep as <- _. exact Hlen. }
  apply sublist_length in Hsub. unfold len in *. split; [lia |].
  intros H1 H2. rewrite Hpw, (Hsame H1 H2). exact Hl.
Qed.

Lemma GeneratePasswords_length_bound_witness :
  Forall (fun pw => len pw <= 5
                    /\ (NoSimilar (request 5 1 false false false true false false false true)
                          = false ->
                        NoDuplicates (request 5 1 false false false true false false false true)
                          = false ->
                        len pw = 5))
    [[120; 71; 103; 57; 121]].
Proof.
  apply (GeneratePasswords_length_bound
           (request 5 1 false false false true false false false true) 3
           (draws [23; 0; 1; 2; 24; 6; 32; 61]) 0%nat
           [[120; 71; 103; 57; 121]] None 8%nat).
  - lia.
  - vm_compute. reflexivity.
Defined.

(** X13. Whatever the flags and the source, every character of a returned
    password belongs to the alphabet of an enabled class, or, when
    [NoSequential] is on, to the alphanumeric alphabet of [getRandomRune];
    so with [NoSequential] off no character comes from a disabled class. *)
Theorem GeneratePasswords_alphabet
    (opts : PasswordOptions) (fuel : nat) (src : source) (pos : nat)
    (pws : list (list rune)) (err : option error) (pos' : nat) :
  GeneratePasswords fuel opts src pos = Done (pws, err) pos' ->
  Forall (Forall (fun c => in_enabled_class opts c
                           \/ (NoSequential opts = true /\ c ∈ charSets))) pws.
Proof.
  intros Hrun. unfold GeneratePasswords in Hrun.
  eapply (GeneratePasswords_loop_Forall fuel opts src); [| constructor | exact Hrun].
  intros pos0 pw pos1 Hgen.
  apply generatePassword_Done in Hgen as (raw & _ & Hpool & _ & Henf).
  apply enforce_Done in Henf as (s & Hsub & _ & _ & Hout).
  assert (Hs : forall c, c ∈ s -> in_enabled_class opts c).
  { intros c Hc. apply elem_of_buildCharacterSet.
    rewrite Forall_forall in Hpool. eapply Hpool, elem_of_sublist; eassumption. }
  destruct (NoSequential opts).
  - unfold removeSequentialCharacters in Hout.
    apply removeSequential_loop_Done in Hout; [| constructor].
    eapply Forall_impl; [exact Hout |].
    intros c [Hc | Hc]; [left; apply Hs, Hc | right; auto].
  - destruct Hout as [-> _]. apply Forall_forall. intros c Hc. left. apply Hs, Hc.
Qed.

Lemma GeneratePasswords_alphabet_witness :
  Forall (Forall (fun c =>
            in_enabled_class (request 5 1 false false false true false false false true) c
            \/ (NoSequential (request 5 1 false false false true false false false true) = true
                /\ c ∈ charSets)))
    [[120; 71; 103; 57; 121]].
Proof.
  apply (GeneratePasswords_alphabet
           (request 5 1 false false false true false false false true) 3
           (draws [23; 0; 1; 2; 24; 6; 32; 61]) 0%nat
           [[120; 71; 103; 57; 121]] None 8%nat).
  vm_compute. reflexivity.
Defined.

(** ** Reads of the source *)

Lemma GeneratePasswords_loop_reads fuel opts src :
  NoSequential opts = false ->
  forall n passwords pos pws pos',
    GeneratePasswords_loop n fuel opts passwords src pos = Done (pws, None) pos' ->
    pos' = (pos + n * Z.to_nat (Length opts))%nat
    /\ length pws = (length passwords + n)%nat.
Proof.
  intros Hseq. induction n as [| n IH]; intros passwords pos pws pos'.
  - cbn [GeneratePasswords_loop]. rewrite ret_eq. intros [= <- <-]. lia.
  - rewrite GeneratePasswords_loop_S. intros Hrun.
    apply bind_Done_inv in Hrun as ([pw [e |]] & pos1 & Hgen & Hrun);
      [rewrite ret_eq in Hrun; discriminate |].
    apply generatePassword_Done in Hgen as (raw & _ & _ & _ & Henf).
    apply enforce_Done in Henf as (s & _ & _ & _ & Hout).
    rewrite Hseq in Hout. destruct Hout as [_ ->].
    apply IH in Hrun as [-> Hcount].
    rewrite length_app in Hcount. cbn [length] in Hcount. lia.
Qed.

(** X14. Without [NoSequential], a batch that returns without error has
    read the source exactly [Length] times for each of its [Quantity]
    passwords: one read for each character assembled, none for similar or
    duplicate removal. *)
Theorem GeneratePasswords_reads
    (opts : PasswordOptions) (fuel : nat) (src : source) (pos : nat)
    (pws : list (list rune)) (pos' : nat) :
  NoSequential opts = false ->
  GeneratePasswords fuel opts src pos = Done (pws, None) pos' ->
  pos' = (pos + Z.to_nat (Quantity opts) * Z.to_nat (Length opts))%nat
  /\ length pws = Z.to_nat (Quantity opts).
Proof.
  intros Hseq Hrun. unfold GeneratePasswords in Hrun.
  apply (GeneratePasswords_loop_reads fuel opts src Hseq) in Hrun as [-> Hcount].
  split; [reflexivity | exact Hcount].
Qed.

Lemma GeneratePasswords_reads_witness :
  13%nat = (1 + Z.to_nat 3 * Z.to_nat 4)%nat
  /\ length [[98; 99; 100]; [102; 103; 104; 106]; [107; 109; 110]] = Z.to_nat 3.
Proof.
  apply (GeneratePasswords_reads
           (request 4 3 false false false true false true true false) 3
           (draws [99; 1; 2; 3; 1; 5; 6; 7; 9; 10; 11; 12; 13]) 1%nat
           [[98; 99; 100]; [102; 103; 104; 106]; [107; 109; 110]] 13%nat).
  - reflexivity.
  - vm_compute. reflexivity.
Defined.

(** ** Errors and panics of the batch *)

Lemma index_at_pos (s : list rune) i src pos c pos' :
  index_at s i src pos = Done c pos' -> pos' = pos.
Proof.
  unfold index_at. destruct (if 0 <=? i then s !! Z.to_nat i else None);
    [| discriminate].
  intros [= _ <-]. reflexivity.
Qed.

Lemma getRandomRune_pos src pos c pos' :
  getRandomRune src pos = Done c pos' -> pos' = S pos.
Proof.
  destruct (src pos) as [k |] eqn:Hk.
  - destruct (getRandomRune_value src pos k Hk) as (c1 & -> & _).
    intros [= _ <-]. reflexivity.
  - rewrite getRandomRune_failure by exact Hk. discriminate.
Qed.

(** The reads made are never given back: a computation that returns has
    moved on in the source, or stayed where it was. *)
Lemma generateNonSequential_loop_pos runes index fuel :
  forall acc src pos r pos',
    generateNonSequential_loop fuel runes index acc src pos = Done r pos' ->
    (pos <= pos')%nat.
Proof.
  induction fuel as [| fuel IH]; intros acc src pos r pos';
    cbn [generateNonSequential_loop]; destruct (len acc <? 3);
    try discriminate; try (intros [= _ <-]; lia).
  intros Hrun.
  apply bind_Done_inv in Hrun as (c & p1 & Hdraw & Hrun).
  apply getRandomRune_pos in Hdraw as ->.
  apply bind_Done_inv in Hrun as (left & p2 & Hleft & Hrun).
  assert (p2 = S pos) as ->.
  { destruct (0 <? index).
    - apply bind_Done_inv in Hleft as (prev & p & Hat & Hret).
      apply index_at_pos in Hat as ->. rewrite ret_eq in Hret. congruence.
    - rewrite ret_eq in Hleft. congruence. }
  apply bind_Done_inv in Hrun as (skip & p3 & Hskip & Hrun).
  assert (p3 = S pos) as ->.
  { destruct left; [rewrite ret_eq in Hskip; congruence |].
    destruct (index + 3 <? len runes).
    - apply bind_Done_inv in Hskip as (next & p & Hat & Hret).
      apply index_at_pos in Hat as ->. rewrite ret_eq in Hret. congruence.
    - rewrite ret_eq in Hskip. congruence. }
  destruct skip; apply IH in Hrun; lia.
Qed.

Lemma removeSequential_loop_pos fuel runes steps :
  forall i result src pos s pos',
    removeSequential_loop steps fuel runes i result src pos = Done s pos' ->
    (pos <= pos')%nat.
Proof.
  induction steps as [| steps IH]; intros i result src pos s pos';
    cbn [removeSequential_loop]; destruct (i <? len runes);
    try discriminate; try (intros [= _ <-]; lia).
  intros Hrun.
  apply bind_Done_inv in Hrun as (found & p1 & Hfound & Hrun).
  assert (p1 = pos) as ->.
  { destruct (i + 2 <? len runes); [| rewrite ret_eq in Hfound; congruence].
    apply bind_Done_inv in Hfound as (a & pa & Ha & Hfound).
    apply index_at_pos in Ha as ->.
    apply bind_Done_inv in Hfound as (b & pb & Hb & Hfound).
    apply index_at_pos in Hb as ->.
    apply bind_Done_inv in Hfound as (c & pc & Hc & Hfound).
    apply index_at_pos in Hc as ->. rewrite ret_eq in Hfound. congruence. }
  destruct found.
  - apply bind_Done_inv in Hrun as (replacement & p2 & Hrep & Hrun).
    apply generateNonSequential_loop_pos in Hrep. apply IH in Hrun. lia.
  - apply bind_Done_inv in Hrun as (c & p2 & Hc & Hrun).
    apply index_at_pos in Hc as ->. apply IH in Hrun. exact Hrun.
Qed.

Lemma generatePassword_pos fuel opts src pos pw pos' :
  generatePassword fuel opts src pos = Done (pw, None) pos' -> (pos <= pos')%nat.
Proof.
  intros Hgen.
  apply generatePassword_Done in Hgen as (raw & _ & _ & _ & Henf).
  apply enforce_Done in Henf as (s & _ & _ & _ & Hout).
  destruct (NoSequential opts); [| lia].
  unfold removeSequentialCharacters in Hout.
  apply removeSequential_loop_pos in Hout. lia.
Qed.

(** An error return of the filling loop comes right after a failed read
    that the loop made. *)
Lemma fill_loop_error_read opts :
  buildCharacterSet opts <> [] ->
  forall steps i password src pos pw e pos',
    fill_loop steps opts (buildCharacterSet opts) i password src pos = Done (pw, Some e) pos' ->
    exists n, (pos <= n)%nat /\ pos' = S n /\ src n = None.
Proof.
  intros Hpool.
  induction steps as [| steps IH]; intros i password src pos pw e pos'.
  - cbn [fill_loop]. rewrite ret_eq. discriminate.
  - rewrite fill_loop_S. intros Hrun.
    apply bind_Done_inv in Hrun as ([c [e1 |]] & pos1 & Hdraw & Hrun);
      apply draw_at_Done in Hdraw as [-> Hres]; try exact Hpool.
    + rewrite ret_eq in Hrun. injection Hrun as _ _ <-.
      exists pos. destruct Hres as [_ Hfail]. auto.
    + apply IH in Hrun as (n & Hn & -> & Hfail).
      exists n. split; [lia | auto].
Qed.

Lemma generatePassword_error_cause fuel opts src pos pw e pos' :
  buildCharacterSet opts <> [] ->
  generatePassword fuel opts src pos = Done (pw, Some e) pos' ->
  e = errSecureRandom /\ exists n, (pos <= n)%nat /\ pos' = S n /\ src n = None.
Proof.
  intros Hpool. rewrite generatePassword_pool by exact Hpool. intros Hrun.
  apply bind_Done_inv in Hrun as (buffer & pos1 & Hmake & Hrun).
  unfold make_bytes in Hmake.
  destruct (Z.ltb_spec (Length opts) 0); [discriminate |].
  rewrite ret_eq in Hmake. injection Hmake as <- <-.
  apply bind_Done_inv in Hrun as ([raw [e1 |]] & pos2 & Hfill & Hrun).
  - rewrite ret_eq in Hrun. injection Hrun as _ <- <-.
    split; [eapply fill_loop_error, Hfill |].
    eapply fill_loop_error_read; eassumption.
  - apply bind_Done_inv in Hrun as (s & pos3 & _ & Hrun).
    rewrite ret_eq in Hrun. discriminate.
Qed.

Lemma GeneratePasswords_loop_error_cause fuel opts src n :
  forall passwords pos pws e pos',
    GeneratePasswords_loop n fuel opts passwords src pos = Done (pws, Some e) pos' ->
    (e = errNoCharacterType /\ buildCharacterSet opts = [] /\ pos' = pos)
    \/ (e = errSecureRandom /\ buildCharacterSet opts <> []
        /\ exists m, (pos <= m)%nat /\ pos' = S m /\ src m = None).
Proof.
  induction n as [| n IH]; intros passwords pos pws e pos'.
  - cbn [GeneratePasswords_loop]. rewrite ret_eq. discriminate.
  - rewrite GeneratePasswords_loop_S. intros Hrun.
    apply bind_Done_inv in Hrun as ([pw [e1 |]] & pos1 & Hgen & Hrun).
    + rewrite ret_eq in Hrun. injection Hrun as _ <- <-.
      destruct (decide (buildCharacterSet opts = [])) as [Hnil | Hpool].
      * rewrite generatePassword_no_class in Hgen by exact Hnil.
        injection Hgen as _ <- <-. left. auto.
      * right. apply generatePassword_error_cause in Hgen as [-> Hread]; auto.
    + pose proof (generatePassword_pos _ _ _ _ _ _ Hgen) as Hmove.
      apply IH in Hrun as [(He & Hnil & _) | (He & Hpool & m & Hm & Hpos & Hfail)].
      * rewrite generatePassword_no_class in Hgen by exact Hnil. discriminate.
      * right. split; [exact He |]. split; [exact Hpool |].
        exists m. split; [lia | auto].
Qed.

(** X15. The batch returns only two errors. An error comes with [nil],
    never with passwords, and it is the configuration error, returned
    when no class is enabled and before any read, or the sampler's error,
    returned right after a read of this call that failed: the last read
    the call made is the failed one. The reader's own error value never
    comes out. *)
Theorem GeneratePasswords_error_kinds
    (opts : PasswordOptions) (fuel : nat) (src : source) (pos : nat)
    (pws : list (list rune)) (e : error) (pos' : nat) :
  GeneratePasswords fuel opts src pos = Done (pws, Some e) pos' ->
  pws = []
  /\ ((e = errNoCharacterType /\ buildCharacterSet opts = [] /\ pos' = pos)
      \/ (e = errSecureRandom /\ buildCharacterSet opts <> []
          /\ exists m, (pos <= m)%nat /\ pos' = S m /\ src m = None)).
Proof.
  intros Hrun. unfold GeneratePasswords in Hrun. split.
  - apply GeneratePasswords_loop_error in Hrun as [-> _]. reflexivity.
  - eapply GeneratePasswords_loop_error_cause, Hrun.
Qed.

Lemma GeneratePasswords_error_kinds_witness :
  @nil (list rune) = []
  /\ ((errSecureRandom = errNoCharacterType
       /\ buildCharacterSet (request 3 2 false true false false false false false false) = []
       /\ 5%nat = 0%nat)
      \/ (errSecureRandom = errSecureRandom
          /\ buildCharacterSet (request 3 2 false true false false false false false false)
             <> []
          /\ exists m, (0 <= m)%nat /\ 5%nat = S m /\ draws [4; 5; 6; 7] m = None)).
Proof.
  apply (GeneratePasswords_error_kinds
           (request 3 2 false true false false false false false false) 3
           (draws [4; 5; 6; 7]) 0%nat [] errSecureRandom 5%nat).
  vm_compute. reflexivity.
Defined.

Lemma GeneratePasswords_first_generation fuel opts src pos :
  0 < Quantity opts ->
  GeneratePasswords fuel opts src pos =
  (generatePassword fuel opts ≫= fun '(password, err) =>
     match err with
     | Some e => mret ([], Some e)
     | None => GeneratePasswords_loop (Z.to_nat (Quantity opts) - 1) fuel opts
                 ([] ++ [password])
     end) src pos.
Proof.
  intros Hq. unfold GeneratePasswords.
  replace (Z.to_nat (Quantity opts)) with (S (Z.to_nat (Quantity opts) - 1)) at 1 by lia.
  reflexivity.
Qed.

Lemma fill_loop_first opts chars password :
  0 < Length opts ->
  fill_loop (Z.to_nat (Length opts)) opts chars 0 password =
  (draw_at opts chars 0 ≫= fun '(c, err) =>
     match err with
     | Some e => mret ([], Some e)
     | None => fill_loop (Z.to_nat (Length opts) - 1) opts chars (0 + 1)
                 (<[Z.to_nat 0 := c]> password)
     end).
Proof.
  intros Hlen.
  replace (Z.to_nat (Length opts)) with (S (Z.to_nat (Length opts) - 1)) at 1 by lia.
  apply fill_loop_S.
Qed.

(** X16. When the first read of the source fails, a request with a pool, a
    positive [Length] and [Quantity], and letters to start with where a
    leading letter is asked for, gets back [nil] and the sampler's error
    after that one read. *)
Theorem GeneratePasswords_first_read_fails
    (opts : PasswordOptions) (fuel : nat) (src : source) (pos : nat) :
  src pos = None ->
  buildCharacterSet opts <> [] ->
  (BeginWithLetter opts = true -> IncludeUpper opts || IncludeLower opts = true) ->
  0 < Length opts -> 0 < Quantity opts ->
  GeneratePasswords fuel opts src pos = Done ([], Some errSecureRandom) (S pos).
Proof.
  intros Hfail Hpool Hletter Hlen Hq.
  rewrite GeneratePasswords_first_generation by exact Hq.
  rewrite bind_eq, generatePassword_pool by exact Hpool.
  rewrite bind_eq. unfold make_bytes.
  destruct (Z.ltb_spec (Length opts) 0); [lia |].
  rewrite ret_eq, bind_eq, fill_loop_first, bind_eq by exact Hlen.
  assert (Hdraw : draw_at opts (buildCharacterSet opts) 0 src pos
                  = Done (0, Some errSecureRandom) (S pos)).
  { unfold draw_at. rewrite getRandomLetter_eq.
    destruct ((0 =? 0) && BeginWithLetter opts) eqn:Hfirst.
    - apply secureRandomChar_read_failure; [| exact Hfail].
      apply letters_len, letters_nonempty, Hletter.
      apply andb_true_iff in Hfirst. tauto.
    - apply secureRandomChar_read_failure; [apply pool_len, Hpool | exact Hfail]. }
  rewrite Hdraw. reflexivity.
Qed.

Lemma GeneratePasswords_first_read_fails_witness :
  GeneratePasswords 3 (request 8 5 true true true true true true true true) (draws []) 0%nat
  = Done ([], Some errSecureRandom) 1%nat.
Proof.
  apply (GeneratePasswords_first_read_fails
           (request 8 5 true true true true true true true true) 3 (draws []) 0%nat).
  - reflexivity.
  - discriminate.
  - reflexivity.
  - reflexivity.
  - reflexivity.
Defined.

(** X17. A request that asks for a leading letter with a non-letter class
    enabled and no letter class, with a positive [Length] and [Quantity],
    makes the batch panic in [rand.Int] on the empty letter pool, whatever
    the source: no error is returned, and nothing is read. *)
Theorem GeneratePasswords_letter_start_without_letters
    (opts : PasswordOptions) (fuel : nat) (src : source) (pos : nat) :
  letter_start_without_letters opts ->
  0 < Length opts -> 0 < Quantity opts ->
  GeneratePasswords fuel opts src pos = Panicked RandIntArgument.
Proof.
  intros (Hletter & Hupper & Hlower & Hother) Hlen Hq.
  assert (Hpool : buildCharacterSet opts <> []).
  { rewrite buildCharacterSet_nil. intros (Hs & Hn & _). destruct Hother; congruence. }
  rewrite GeneratePasswords_first_generation by exact Hq.
  rewrite bind_eq, generatePassword_pool by exact Hpool.
  rewrite bind_eq. unfold make_bytes.
  destruct (Z.ltb_spec (Length opts) 0); [lia |].
  rewrite ret_eq, bind_eq, fill_loop_first, bind_eq by exact Hlen.
  unfold draw_at. rewrite Hletter. cbn [Z.eqb andb].
  rewrite getRandomLetter_without_letters by assumption. reflexivity.
Qed.

Lemma GeneratePasswords_letter_start_without_letters_witness :
  GeneratePasswords 3 (request 8 1 true true false false true false false false)
    (draws [1; 2; 3]) 0%nat
  = Panicked RandIntArgument.
Proof.
  apply (GeneratePasswords_letter_start_without_letters
           (request 8 1 true true false false true false false false) 3
           (draws [1; 2; 3]) 0%nat).
  - unfold letter_start_without_letters. cbn. auto.
  - reflexivity.
  - reflexivity.
Defined.

(** X18. A negative [Length], with a class enabled and a positive
    [Quantity], makes the batch panic in [make]: no error is returned,
    and nothing is read. *)
Theorem GeneratePasswords_negative_length
    (opts : PasswordOptions) (fuel : nat) (src : source) (pos : nat) :
  buildCharacterSet opts <> [] ->
  Length opts < 0 -> 0 < Quantity opts ->
  GeneratePasswords fuel opts src pos = Panicked MakesliceLen.
Proof.
  intros Hpool Hlen Hq.
  rewrite GeneratePasswords_first_generation by exact Hq.
  rewrite bind_eq, generatePassword_pool by exact Hpool.
  rewrite bind_eq. unfold make_bytes.
  destruct (Z.ltb_spec (Length opts) 0); [reflexivity | lia].
Qed.

Lemma GeneratePasswords_negative_length_witness :
  GeneratePasswords 3 (request (-1) 2 false false true false false false false false)
    (draws [1; 2; 3]) 0%nat
  = Panicked MakesliceLen.
Proof.
  apply (GeneratePasswords_negative_length
           (request (-1) 2 false false true false false false false false) 3
           (draws [1; 2; 3]) 0%nat).
  - discriminate.
  - reflexivity.
  - reflexivity.
Defined.

Lemma generatePassword_empty fuel opts src pos :
  buildCharacterSet opts <> [] -> Length opts = 0 ->
  generatePassword fuel opts src pos = Done ([], None) pos.
Proof.
  intros Hpool Hlen. rewrite generatePassword_pool by exact Hpool.
  rewrite Hlen. unfold enforce.
  destruct (NoSimilar opts), (NoDuplicates opts), (NoSequential opts); reflexivity.
Qed.

Lemma GeneratePasswords_loop_empty fuel opts src pos :
  buildCharacterSet opts <> [] -> Length opts = 0 ->
  forall n passwords,
    GeneratePasswords_loop n fuel opts passwords src pos
    = Done (passwords ++ replicate n [], None) pos.
Proof.
  intros Hpool Hlen. induction n as [| n IH]; intros passwords.
  - cbn [GeneratePasswords_loop replicate]. rewrite app_nil_r. reflexivity.
  - rewrite GeneratePasswords_loop_S, bind_eq, generatePassword_empty by assumption.
    rewrite IH, replicate_S, <- app_assoc. reflexivity.
Qed.

(** X19. A [Length] of 0, with a class enabled, is no error: whatever the
    other flags and the source, the batch returns [Quantity] empty
    passwords and reads nothing. *)
Theorem GeneratePasswords_zero_length
    (opts : PasswordOptions) (fuel : nat) (src : source) (pos : nat) :
  buildCharacterSet opts <> [] ->
  Length opts = 0 ->
  GeneratePasswords fuel opts src pos
  = Done (replicate (Z.to_nat (Quantity opts)) [], None) pos.
Proof.
  intros Hpool Hlen. unfold GeneratePasswords.
  rewrite GeneratePasswords_loop_empty by assumption. reflexivity.
Qed.

Lemma GeneratePasswords_zero_length_witness :
  GeneratePasswords 3 (request 0 3 false true false false false true true true)
    (draws []) 0%nat
  = Done (replicate (Z.to_nat 3) [], None) 0%nat.
Proof.
  apply (GeneratePasswords_zero_length
           (request 0 3 false true false false false true true true) 3 (draws []) 0%nat).
  - discriminate.
  - reflexivity.
Defined.

(** ** The samplers on their own *)

(** X20. The sampler panics on the empty pool. On a pool of one character
    it returns that character without consulting the source. On any other
    pool it makes one call of [rand.Int] that consults the source: if the
    call delivers, it returns a character of the pool and no error; if
    the call fails, it returns the zero byte with its own error. So it
    returns its error exactly when the read failed. *)
Theorem secureRandomChar_contract (chars : list rune) (src : source) (pos : nat) :
  match chars with
  | [] => secureRandomChar chars src pos = Panicked RandIntArgument
  | [c] => secureRandomChar chars src pos = Done (c, None) pos
  | _ :: _ :: _ =>
      match src pos with
      | Some _ =>
          exists c, secureRandomChar chars src pos = Done (c, None) (S pos) /\ c ∈ chars
      | None =>
          secureRandomChar chars src pos = Done (0, Some errSecureRandom) (S pos)
      end
  end.
Proof.
  destruct chars as [| c0 [| c1 chars]]; [reflexivity | reflexivity |].
  assert (Hlen : 1 < len (c0 :: c1 :: chars)) by (unfold len; cbn [length]; lia).
  destruct (src pos) as [k |] eqn:Hk.
  - destruct (secureRandomChar_spec (c0 :: c1 :: chars) src pos)
      as (c & err & pos' & Hrun & Hres); [discriminate |].
    pose proof Hrun as Hrun'.
    apply secureRandomChar_Done in Hrun' as [-> _]; [| exact Hlen].
    destruct err as [e |]; [destruct Hres as [_ Hnone]; congruence |].
    exists c. split; [exact Hrun | exact Hres].
  - apply secureRandomChar_read_failure; [exact Hlen | exact Hk].
Qed.

(** X21. Whatever the other flags, a character [getRandomLetter] returns
    without error is a letter of an enabled letter class, so one of A to Z
    or a to z, never a symbol or a digit. *)
Theorem getRandomLetter_only_letters
    (opts : PasswordOptions) (src : source) (pos : nat) (c : rune) (pos' : nat) :
  getRandomLetter opts src pos = Done (c, None) pos' ->
  ((IncludeUpper opts = true /\ c ∈ upperChars)
   \/ (IncludeLower opts = true /\ c ∈ lowerChars))
  /\ (65 <= c <= 90 \/ 97 <= c <= 122).
Proof.
  rewrite getRandomLetter_eq. intros Hrun.
  assert (Hin : c ∈ letters opts).
  { destruct (decide (letters opts = [])) as [Hnil | Hne].
    - rewrite Hnil, secureRandomChar_nil in Hrun. discriminate.
    - apply secureRandomChar_Done in Hrun as [_ Hc]; [exact Hc | apply letters_len, Hne]. }
  apply elem_of_letters in Hin. split; [exact Hin |].
  assert (Hupper : Forall (fun c => 65 <= c <= 90) upperChars) by compute_done.
  assert (Hlower : Forall (fun c => 97 <= c <= 122) lowerChars) by compute_done.
  rewrite Forall_forall in Hupper, Hlower.
  destruct Hin as [[_ Hc] | [_ Hc]]; [left; apply Hupper, Hc | right; apply Hlower, Hc].
Qed.

Lemma getRandomLetter_only_letters_witness :
  ((IncludeUpper (request 8 1 true true true true true false false false) = true
    /\ 100 ∈ upperChars)
   \/ (IncludeLower (request 8 1 true true true true true false false false) = true
       /\ 100 ∈ lowerChars))
  /\ (65 <= 100 <= 90 \/ 97 <= 100 <= 122).
Proof.
  apply (getRandomLetter_only_letters
           (request 8 1 true true true true true false false false)
           (draws [29]) 0%nat 100 1%nat).
  vm_compute. reflexivity.
Defined.

(** ** Duplicate removal and the size of the pool *)

(** X22. With [NoDuplicates] and without [NoSequential], no returned
    password is longer than the pool, however large [Length] is: a request
    for digits only gets at most ten characters. *)
Theorem GeneratePasswords_no_duplicates_pool_bound
    (opts : PasswordOptions) (fuel : nat) (src : source) (pos : nat)
    (pws : list (list rune)) (err : option error) (pos' : nat) :
  NoDuplicates opts = true ->
  NoSequential opts = false ->
  GeneratePasswords fuel opts src pos = Done (pws, err) pos' ->
  Forall (fun pw => len pw <= len (buildCharacterSet opts)) pws.
Proof.
  intros Hdup Hseq Hrun. unfold GeneratePasswords in Hrun.
  eapply (GeneratePasswords_loop_Forall fuel opts src); [| constructor | exact Hrun].
  intros pos0 pw pos1 Hgen.
  pose proof (generatePassword_without_repair _ _ _ _ _ _ Hseq Hgen) as (raw0 & Hshape).
  apply generatePassword_Done in Hgen as (raw & _ & Hpool & _ & Henf).
  apply enforce_Done in Henf as (s & Hsub & _ & _ & Hout).
  rewrite Hseq in Hout. destruct Hout as [-> _].
  assert (Hnd : NoDup s).
  { rewrite Hshape, Hdup. cbv zeta. apply removeDuplicateCharacters_spec. }
  unfold len. apply inj_le, submseteq_length, NoDup_submseteq; [exact Hnd |].
  intros c Hc. rewrite Forall_forall in Hpool.
  eapply Hpool, elem_of_sublist; eassumption.
Qed.

Lemma GeneratePasswords_no_duplicates_pool_bound_witness :
  Forall (fun pw => len pw
                    <= len (buildCharacterSet
                              (request 12 1 false true false false false false true false)))
    [[51; 49; 52; 53; 57; 50; 54; 56]].
Proof.
  apply (GeneratePasswords_no_duplicates_pool_bound
           (request 12 1 false true false false false false true false) 3
           (draws [3; 1; 4; 1; 5; 9; 2; 6; 5; 3; 5; 8]) 0%nat
           [[51; 49; 52; 53; 57; 50; 54; 56]] None 12%nat).
  - reflexivity.
  - reflexivity.
  - vm_compute. reflexivity.
Defined.
